(** * Sound absorption of a rigid-backed porous layer

    Shallow embedding of [porous/funcs.py]: the module-level constants, the
    [Fluid] class, the Johnson-Champoux-Allard computation [rho_c_JCA], the
    impedance-to-absorption conversion [alpha_from_dkz] and the two entry
    points [DBM] and [JCA].

    Conventions of the embedding.
    - A Python [float] and a [float64] array entry is a real number; a Python
      [complex] and a [complex128] entry is a pair of reals.  Rounding,
      underflow, overflow, infinities and NaN are not represented.
    - The scalar arguments are Python floats, as [main.py] passes them; the
      division of one Python scalar by another raises [ZeroDivisionError] on
      a zero divisor ([py_div]).  The [OverflowError] that Python's scalar
      power raises when its result leaves the float range (lines 43, 46, 49
      and 82 to 93) is not represented: the embedding speaks for arguments
      whose powers stay in range.
    - numpy arithmetic never raises.  Where numpy would produce an infinity
      or a NaN (a division by zero on an array, as at [tan (k d) = 0] in
      line 12; a fractional power of a base that is zero or negative) the
      embedding has the value of the total function of the real-number
      library, which is not the value numpy has; the statements about values
      are made where no such point is met, or do not depend on the value.
    - A one-dimensional ndarray is a list.  An operation between a scalar and
      an array is a [map]; an operation between two arrays is [broadcast],
      which raises [ValueError] as numpy does on incompatible shapes.
    - [x ** 2], [x ** 2.0] and [x ** 3] are [x ^ 2] and [x ^ 3]; a float
      raised to a fractional power is [float_pow]; on a complex array
      [** 0.5] is the principal square root [Csqrt] and [** -1] is [Cinv].
    - The names bound at module level live in a store [Env]; a function that
      reads one of them runs in the monad [M], which threads the store. *)

From Stdlib Require Import Reals Lra Lia List ZArith Bool.
Import ListNotations.
Local Open Scope R_scope.

(** ** Exceptions *)

Inductive exn : Type :=
| ZeroDivisionError
| ValueError.

Inductive result (A : Type) : Type :=
| Ok (a : A)
| Raise (e : exn).

Arguments Ok {A} a.
Arguments Raise {A} e.

Definition rbind {A B} (r : result A) (k : A -> result B) : result B :=
  match r with
  | Ok a => k a
  | Raise e => Raise e
  end.

Declare Scope result_scope.
Delimit Scope result_scope with result.
Notation "x <- r ;; k" := (rbind r (fun x => k))
  (at level 61, r at next level, right associativity) : result_scope.
Notation "' pat <- r ;; k" := (rbind r (fun x => match x with pat => k end))
  (at level 61, pat pattern, r at next level, right associativity) : result_scope.

(** [x / y] on two Python floats. *)
Definition py_div (x y : R) : result R :=
  if Req_dec_T y 0 then Raise ZeroDivisionError else Ok (x / y).

(** [x ** y] on floats with a float exponent; the real power for a positive
    base, and faithful there only (for a negative base and a fractional
    exponent Python returns a complex number and numpy a NaN, for a base of
    zero numpy returns zero or an infinity, where [Rpower] is 1). *)
Definition float_pow (x y : R) : R := Rpower x y.

(** ** Complex numbers *)

Record complex : Type := mkC { Re : R; Im : R }.

Declare Scope complex_scope.
Delimit Scope complex_scope with C.
Bind Scope complex_scope with complex.

Definition RtoC (x : R) : complex := mkC x 0.
Definition Ci : complex := mkC 0 1.

Definition Cadd (a b : complex) : complex := mkC (Re a + Re b) (Im a + Im b).
Definition Copp (a : complex) : complex := mkC (- Re a) (- Im a).
Definition Csub (a b : complex) : complex := mkC (Re a - Re b) (Im a - Im b).
Definition Cmul (a b : complex) : complex :=
  mkC (Re a * Re b - Im a * Im b) (Re a * Im b + Im a * Re b).
Definition Cnorm2 (a : complex) : R := Re a * Re a + Im a * Im a.
Definition Cinv (a : complex) : complex :=
  mkC (Re a / Cnorm2 a) (- Im a / Cnorm2 a).
Definition Cdiv (a b : complex) : complex :=
  mkC ((Re a * Re b + Im a * Im b) / Cnorm2 b)
      ((Im a * Re b - Re a * Im b) / Cnorm2 b).

(** [np.abs] of a complex number. *)
Definition Cabs (a : complex) : R := sqrt (Cnorm2 a).

(** [np.sqrt] and [** 0.5] of a complex number: the principal square root. *)
Definition Csqrt (a : complex) : complex :=
  mkC (sqrt ((Cabs a + Re a) / 2))
      ((if Rle_dec 0 (Im a) then 1 else -1) * sqrt ((Cabs a - Re a) / 2)).

Definition Csin (a : complex) : complex :=
  mkC (sin (Re a) * cosh (Im a)) (cos (Re a) * sinh (Im a)).
Definition Ccos (a : complex) : complex :=
  mkC (cos (Re a) * cosh (Im a)) (- (sin (Re a) * sinh (Im a))).

(** [np.tan] of a complex number. *)
Definition Ctan (a : complex) : complex := Cdiv (Csin a) (Ccos a).

Infix "+" := Cadd : complex_scope.
Infix "-" := Csub : complex_scope.
Infix "*" := Cmul : complex_scope.
Infix "/" := Cdiv : complex_scope.
Notation "- a" := (Copp a) : complex_scope.

(** Literals of the source that are complex: [1j], [4j]. *)
Notation "'1j'" := Ci : complex_scope.
Notation "'4j'" := (mkC 0 4) : complex_scope.

(** ** One-dimensional arrays *)

Fixpoint zip_with {A B D} (op : A -> B -> D) (a : list A) (b : list B) : list D :=
  match a, b with
  | x :: a', y :: b' => op x y :: zip_with op a' b'
  | _, _ => []
  end.

(** An elementwise operation between two arrays under numpy's broadcasting
    rule for one dimension: equal lengths pair up entry by entry, a length of
    one is stretched, anything else is a shape error. *)
Definition broadcast {A B D} (op : A -> B -> D) (a : list A) (b : list B)
  : result (list D) :=
  if Nat.eqb (length a) (length b) then Ok (zip_with op a b)
  else match a, b with
       | [x], _ => Ok (map (op x) b)
       | _, [y] => Ok (map (fun x => op x y) a)
       | _, _ => Raise ValueError
       end.

(** [np.arange(start, stop, step)] for integral arguments and a positive
    step: [ceil((stop - start) / step)] entries [start + i * step]. *)
Definition arange (start stop step : Z) : list R :=
  map (fun i => IZR (start + Z.of_nat i * step))
      (seq 0 (Z.to_nat ((stop - start + step - 1) / step))).

(** ** Module-level constants (lines 3-8) *)

Definition freq : list R := arange 50 10000 10.
Definition omega : list R := map (fun x => 2 * PI * x) freq.
Definition c0 : R := 343.0.
Definition rho0 : R := 1.213.
Definition z0 : R := rho0 * c0.
Definition k0 : list R := map (fun w => w / c0) omega.

(** The store of module-level names. *)
Record Env : Type := mkEnv {
  g_freq : list R;
  g_omega : list R;
  g_c0 : R;
  g_rho0 : R;
  g_z0 : R;
  g_k0 : list R
}.

(** The store once the module has been imported. *)
Definition module_env : Env :=
  {| g_freq := freq; g_omega := omega; g_c0 := c0;
     g_rho0 := rho0; g_z0 := z0; g_k0 := k0 |}.

(** ** Computations over the store *)

Definition M (A : Type) : Type := Env -> result A * Env.

Definition ret {A} (a : A) : M A := fun e => (Ok a, e).

Definition bind {A B} (m : M A) (k : A -> M B) : M B :=
  fun e => match m e with
           | (Ok a, e') => k a e'
           | (Raise x, e') => (Raise x, e')
           end.

(** Reading a module-level name. *)
Definition global {A} (field : Env -> A) : M A := fun e => (Ok (field e), e).

(** A computation that does not touch the store. *)
Definition lift {A} (r : result A) : M A := fun e => (r, e).

Declare Scope M_scope.
Delimit Scope M_scope with M.
Notation "x <- m ;; k" := (bind m (fun x => k))
  (at level 61, m at next level, right associativity) : M_scope.
Notation "' pat <- m ;; k" := (bind m (fun x => match x with pat => k end))
  (at level 61, pat pattern, m at next level, right associativity) : M_scope.

(** The outcome of a call made right after import. *)
Definition eval {A} (m : M A) : result A := fst (m module_env).

(** ** [alpha_from_dkz] (lines 11-15) *)

Definition alpha_from_dkz (d : R) (k z : list complex) : M (list R) :=
  ((* zs = -1j * z / np.tan(k * d) *)
   zs <- lift (broadcast Cdiv (map (fun w => (- 1j) * w)%C z)
                              (map Ctan (map (fun w => (w * RtoC d)%C) k))) ;;
   (* R = (zs - z0) / (zs + z0) *)
   z0 <- global g_z0 ;;
   let num := map (fun w => (w - RtoC z0)%C) zs in
   z0' <- global g_z0 ;;
   let den := map (fun w => (w + RtoC z0')%C) zs in
   R <- lift (broadcast Cdiv num den) ;;
   (* alpha = 1 - np.abs(R) ** 2 *)
   let alpha := map (fun x => 1 - x) (map (fun x => x ^ 2) (map Cabs R)) in
   ret alpha)%M.

(** ** [Fluid] (lines 18-61) *)

(** The constructor's arguments, with their defaults; [R_] is the gas
    constant [R]. *)
Module FluidArgs.
Record t : Type := mk {
  T0 : R;
  P0 : R;
  R_ : R;
  adia : R;
  Tref : R;
  C : R;
  Eta0 : R
}.

Definition default : t :=
  {| T0 := 20.0; P0 := 101325.0; R_ := 287.05; adia := 1.4;
     Tref := 291.15; C := 120.0; Eta0 := 18.07e-6 |}.
End FluidArgs.

Module Fluid.
(** The attributes set by [__init__]. *)
Record t : Type := mk {
  TK : R;
  rho : R;
  Eta : R;
  Cp : R;
  kappa : R;
  co : R;
  c : R;
  speedOfSound : R;
  density : R;
  adia : R;
  gamma : R;
  P0 : R;
  Pr : R
}.

Definition init (a : FluidArgs.t) : result t :=
  (let T0 := FluidArgs.T0 a in
   let R_ := FluidArgs.R_ a in
   let Tref := FluidArgs.Tref a in
   let C := FluidArgs.C a in
   let TK := T0 + 273.15 in
   rho <- py_div (FluidArgs.P0 a) (R_ * TK) ;;
   q1 <- py_div (Tref + C) (TK + C) ;;
   q2 <- py_div TK Tref ;;
   let Eta := FluidArgs.Eta0 a * q1 * float_pow q2 (3.0 / 2.0) in
   let Cp := 1e3 * (1.0062 + 3.6028e-5 * T0 - 1.0855e-6 * T0 ^ 2
                    + 1.3791e-8 * T0 ^ 3) in
   let kappa := 1.5207e-11 * TK ^ 3 - 4.8574e-8 * TK ^ 2
                + 1.0184e-4 * TK - 3.9333e-4 in
   let co := sqrt (FluidArgs.adia a * (R_ * TK)) in
   Pr <- py_div (Cp * Eta) kappa ;;
   Ok {| TK := TK; rho := rho; Eta := Eta; Cp := Cp; kappa := kappa;
         co := co; c := co; speedOfSound := co; density := rho;
         adia := FluidArgs.adia a; gamma := FluidArgs.adia a;
         P0 := FluidArgs.P0 a; Pr := Pr |})%result.
End Fluid.

(** ** [rho_c_JCA] (lines 64-106) *)

Definition rho_c_JCA (freq : list R) (phi sigma alpha v_length t_length : R)
  (args : FluidArgs.t) : result (list complex * list complex) :=
  (f <- Fluid.init args ;;
   let omega := map (fun x => 2 * PI * x) freq in
   Pr <- py_div (Fluid.Cp f * Fluid.Eta f) (Fluid.kappa f) ;;
   (* G_J, lines 82-86:
      4j * alpha**2.0 * f.Eta * f.rho * omega, over
      sigma**2.0 * v_length**2.0 * phi**2.0, plus 1, to the power 0.5 *)
   let g1 := map (fun w => (4j * RtoC (alpha ^ 2) * RtoC (Fluid.Eta f)
                            * RtoC (Fluid.rho f) * RtoC w)%C) omega in
   let g2 := map (fun w => (w / RtoC (sigma ^ 2 * v_length ^ 2 * phi ^ 2))%C)
               g1 in
   let G_J := map Csqrt (map (fun w => (RtoC 1 + w)%C) g2) in
   (* rho, line 87: alpha * f.rho / phi, then
      sigma * phi over 1j * f.rho * omega * alpha, times G_J, plus 1 *)
   pre <- py_div (alpha * Fluid.rho f) phi ;;
   let r1 := map (fun w => (w * RtoC alpha)%C)
               (map (fun w => (1j * RtoC (Fluid.rho f) * RtoC w)%C) omega) in
   let r2 := map (fun w => (RtoC (sigma * phi) / w)%C) r1 in
   r3 <- broadcast Cmul r2 G_J ;;
   let rho := map (fun w => (RtoC pre * w)%C)
                (map (fun w => (RtoC 1 + w)%C) r3) in
   (* K, lines 88-103: f.gamma * f.P0 / phi first *)
   pre_K <- py_div (Fluid.gamma f * Fluid.P0 f) phi ;;
   (* 8 * f.Eta over 1j * t_length**2.0 * Pr**2.0 * omega * f.rho *)
   let k1 := map (fun w => (w * RtoC (Fluid.rho f))%C)
               (map (fun w => (1j * RtoC (t_length ^ 2) * RtoC (Pr ^ 2)
                               * RtoC w)%C) omega) in
   let k2 := map (fun w => (RtoC (8 * Fluid.Eta f) / w)%C) k1 in
   (* 1 + 1j * f.rho * (omega * Pr**2.0 * t_length**2.0) / (16 * f.Eta),
      to the power 0.5 *)
   let h1 := map (fun w => w * t_length ^ 2)
               (map (fun w => w * Pr ^ 2) omega) in
   let h2 := map (fun w => (1j * RtoC (Fluid.rho f) * RtoC w)%C) h1 in
   let h3 := map (fun w => (w / RtoC (16 * Fluid.Eta f))%C) h2 in
   let H := map Csqrt (map (fun w => (RtoC 1 + w)%C) h3) in
   (* 1 + k2 * H, to the power -1; f.gamma - (f.gamma - 1) * that *)
   k3 <- broadcast Cmul k2 H ;;
   let k4 := map Cinv (map (fun w => (RtoC 1 + w)%C) k3) in
   let k5 := map (fun w => (RtoC (Fluid.gamma f) - w)%C)
               (map (fun w => (RtoC (Fluid.gamma f - 1) * w)%C) k4) in
   let K := map (fun w => (RtoC pre_K / w)%C) k5 in
   (* c, line 104: np.sqrt(K / rho) *)
   q <- broadcast Cdiv K rho ;;
   let c := map Csqrt q in
   Ok (rho, c))%result.

(** ** [DBM] (lines 109-136) *)

(** Lines 123-127: the impedance
    [z0 * (1 + 5.5 * X ** (-0.632) - 1j * 8.43 * X ** (-0.632))] with
    [X = 1e3 * f / sigma] written out twice. *)
Definition DBM_z (f : list R) (sigma : R) : M (list complex) :=
  (z0 <- global g_z0 ;;
   let X1 := map (fun x => float_pow x (-0.632))
               (map (fun x => x / sigma) (map (fun x => 1e3 * x) f)) in
   let X2 := map (fun x => float_pow x (-0.632))
               (map (fun x => x / sigma) (map (fun x => 1e3 * x) f)) in
   s <- lift (broadcast (fun x y => (RtoC x - y)%C)
                (map (fun x => 1 + x) (map (fun x => 5.5 * x) X1))
                (map (fun x => (1j * RtoC 8.43 * RtoC x)%C) X2)) ;;
   ret (map (fun w => (RtoC z0 * w)%C) s))%M.

(** Lines 128-132: the wavenumber
    [k0 * (1 + 7.81 * X ** (-0.618) - 1j * 11.41 * X ** (-0.618))], [k0]
    being the module-level array. *)
Definition DBM_k (f : list R) (sigma : R) : M (list complex) :=
  (k0 <- global g_k0 ;;
   let X1 := map (fun x => float_pow x (-0.618))
               (map (fun x => x / sigma) (map (fun x => 1e3 * x) f)) in
   let X2 := map (fun x => float_pow x (-0.618))
               (map (fun x => x / sigma) (map (fun x => 1e3 * x) f)) in
   s <- lift (broadcast (fun x y => (RtoC x - y)%C)
                (map (fun x => 1 + x) (map (fun x => 7.81 * x) X1))
                (map (fun x => (1j * RtoC 11.41 * RtoC x)%C) X2)) ;;
   lift (broadcast (fun x y => (RtoC x * y)%C) k0 s))%M.

Definition DBM (f : list R) (d sigma : R) : M (list R) :=
  (z <- DBM_z f sigma ;;
   k <- DBM_k f sigma ;;
   alpha <- alpha_from_dkz d k z ;;
   ret alpha)%M.

(** ** [JCA] (lines 139-158) *)

(** Lines 154-156: the pair [(k, z)] handed to [alpha_from_dkz].  The call
    on line 154 passes the module-level [freq]; with no further argument
    the fluid is the default one. *)
Definition JCA_kz (f : list R) (phi sigma tort v_length t_length : R)
  : M (list complex * list complex) :=
  ((* rho, c = rho_c_JCA(freq, phi, sigma, tort, v_length, t_length) *)
   freq <- global g_freq ;;
   '(rho, c) <- lift (rho_c_JCA freq phi sigma tort v_length t_length
                        FluidArgs.default) ;;
   (* k = f * np.pi * 2 / c *)
   k <- lift (broadcast (fun x y => (RtoC x / y)%C)
                (map (fun x => x * 2) (map (fun x => x * PI) f)) c) ;;
   (* z = rho * c *)
   z <- lift (broadcast Cmul rho c) ;;
   ret (k, z))%M.

Definition JCA (f : list R) (d phi sigma tort v_length t_length : R)
  : M (list R) :=
  ('(k, z) <- JCA_kz f phi sigma tort v_length t_length ;;
   alpha <- alpha_from_dkz d k z ;;
   ret alpha)%M.

(** ** [ParamWidget.get_alpha] (main.py, lines 47-62) *)

(** What [get_alpha] reads from the widget: the values of the six spin boxes
    and the state of the two radio buttons. *)
Record ParamWidget : Type := mkParamWidget {
  sigmaBox : R;
  thicknessBox : R;
  tortuosityBox : R;
  phiBox : R;
  vLengthBox : R;
  tLengthBox : R;
  DBMRadio : bool;
  JCARadio : bool
}.

(** [main.py] imports every name of [funcs] and never rebinds [freq]: the
    array it passes is the grid built at import. *)
Definition get_alpha (self : ParamWidget) : M (list R) :=
  (let sigma := sigmaBox self * 1e3 in
   let d := thicknessBox self * 1e-3 in
   let tort := tortuosityBox self in
   let phi := phiBox self in
   let v_length := vLengthBox self * 1e-6 in
   let t_length := tLengthBox self * 1e-6 in
   alpha <- (if DBMRadio self then DBM freq d sigma
             else if JCARadio self
                  then JCA freq d phi sigma tort v_length t_length
                  else DBM freq d sigma) ;;
   ret alpha)%M.

(** * Formulas of the specification *)

(** A computation that hands the store back as it received it, whatever the
    outcome. *)
Definition read_only {A} (m : M A) : Prop := forall e, snd (m e) = e.

(** Two calls in a row. *)
Definition twice {A} (m : M A) : M (A * A) :=
  (a <- m ;; b <- m ;; ret (a, b))%M.

(** The absorption at one frequency as the specification writes it, for a
    reference impedance [zref]: [zs = -j z / tan (k d)],
    [R = (zs - zref) / (zs + zref)], [1 - |R|^2]. *)
Definition rigid_backed_absorption (zref d : R) (k z : complex) : R :=
  let zs := (- (1j * z) / Ctan (k * RtoC d))%C in
  let R := ((zs - RtoC zref) / (zs + RtoC zref))%C in
  1 - Cabs R ^ 2.

(** The input impedance of the layer: [zs = -j z / tan (k d)]. *)
Definition surface_impedance (d : R) (k z : complex) : complex :=
  (- (1j * z) / Ctan (k * RtoC d))%C.

(** The fits of [Cp] (in the Celsius temperature) and [kappa] (in the
    absolute temperature). *)
Definition Cp_fit (T0 : R) : R :=
  1e3 * (1.0062 + 3.6028e-5 * T0 - 1.0855e-6 * T0 ^ 2 + 1.3791e-8 * T0 ^ 3).

Definition kappa_fit (TK : R) : R :=
  1.5207e-11 * TK ^ 3 - 4.8574e-8 * TK ^ 2 + 1.0184e-4 * TK - 3.9333e-4.

(** A polynomial of degree three. *)
Definition cubic (g : R -> R) : Prop :=
  exists a0 a1 a2 a3 : R,
    a3 <> 0 /\ forall t, g t = a0 + a1 * t + a2 * t ^ 2 + a3 * t ^ 3.

(** The attributes of a fluid built from [a], once the four divisions of the
    constructor have gone through. *)
Definition fluid_of (a : FluidArgs.t) : Fluid.t :=
  let TK := FluidArgs.T0 a + 273.15 in
  let rho := FluidArgs.P0 a / (FluidArgs.R_ a * TK) in
  let Eta := FluidArgs.Eta0 a
             * ((FluidArgs.Tref a + FluidArgs.C a) / (TK + FluidArgs.C a))
             * Rpower (TK / FluidArgs.Tref a) (3 / 2) in
  let co := sqrt (FluidArgs.adia a * (FluidArgs.R_ a * TK)) in
  {| Fluid.TK := TK; Fluid.rho := rho; Fluid.Eta := Eta;
     Fluid.Cp := Cp_fit (FluidArgs.T0 a); Fluid.kappa := kappa_fit TK;
     Fluid.co := co; Fluid.c := co; Fluid.speedOfSound := co;
     Fluid.density := rho; Fluid.adia := FluidArgs.adia a;
     Fluid.gamma := FluidArgs.adia a; Fluid.P0 := FluidArgs.P0 a;
     Fluid.Pr := Cp_fit (FluidArgs.T0 a) * Eta / kappa_fit TK |}.

(** The Johnson-Champoux-Allard formulas at one angular frequency [w], as the
    specification writes them, for a fluid [fl]. *)
Section JCA_formulas.
Variable fl : Fluid.t.
Variables phi sigma alpha Lambda Lambda' : R.

Definition G_arg (w : R) : complex :=
  (RtoC 1 + 4j * RtoC (alpha ^ 2 * Fluid.Eta fl * Fluid.rho fl * w)
            / RtoC (sigma ^ 2 * Lambda ^ 2 * phi ^ 2))%C.

Definition G (w : R) : complex := Csqrt (G_arg w).

Definition rho_eff (w : R) : complex :=
  (RtoC (alpha * Fluid.rho fl / phi)
   * (RtoC 1 + RtoC (sigma * phi) / (1j * RtoC (Fluid.rho fl * w * alpha))
               * G w))%C.

Definition H_arg (w : R) : complex :=
  (RtoC 1 + 1j * RtoC (Fluid.rho fl * w * Fluid.Pr fl ^ 2 * Lambda' ^ 2)
            / RtoC (16 * Fluid.Eta fl))%C.

Definition H (w : R) : complex := Csqrt (H_arg w).

Definition K (w : R) : complex :=
  (RtoC (Fluid.gamma fl * Fluid.P0 fl / phi)
   / (RtoC (Fluid.gamma fl)
      - RtoC (Fluid.gamma fl - 1)
        * Cinv (RtoC 1
                + RtoC (8 * Fluid.Eta fl)
                  / (1j * RtoC (Lambda' ^ 2 * Fluid.Pr fl ^ 2 * w
                                * Fluid.rho fl))
                  * H w)))%C.

Definition c_eff (w : R) : complex := Csqrt (K w / rho_eff w).
End JCA_formulas.

(** The Miki power laws at one frequency, as the specification writes them:
    [X = 1000 f / sigma], the factor of [z0] in the impedance and the factor
    of [k0] in the wavenumber. *)
Definition miki_X (sigma f : R) : R := 1000 * f / sigma.

Definition miki_z_factor (sigma f : R) : complex :=
  (RtoC 1 + RtoC (5.5 * Rpower (miki_X sigma f) (-0.632))
   - 1j * RtoC (8.43 * Rpower (miki_X sigma f) (-0.632)))%C.

Definition miki_k_factor (sigma f : R) : complex :=
  (RtoC 1 + RtoC (7.81 * Rpower (miki_X sigma f) (-0.618))
   - 1j * RtoC (11.41 * Rpower (miki_X sigma f) (-0.618)))%C.

(** * Properties *)

(** ** Arrays *)

Lemma zip_with_length {A B D} (op : A -> B -> D) a b :
  length a = length b -> length (zip_with op a b) = length a.
Proof.
  revert b; induction a as [|x a IH]; intros [|y b] H; simpl in *;
    try discriminate; auto.
Qed.

Lemma zip_with_map {A A' B B' D} (op : A' -> B' -> D) (g : A -> A')
      (h : B -> B') a b :
  zip_with op (map g a) (map h b) = zip_with (fun x y => op (g x) (h y)) a b.
Proof.
  revert b; induction a as [|x a IH]; intros [|y b]; simpl; auto.
  now rewrite IH.
Qed.

Lemma zip_with_diag {A D} (op : A -> A -> D) a :
  zip_with op a a = map (fun x => op x x) a.
Proof. induction a as [|x a IH]; simpl; auto. now rewrite IH. Qed.

Lemma broadcast_same {A B D} (op : A -> B -> D) a b :
  length a = length b -> broadcast op a b = Ok (zip_with op a b).
Proof.
  intros H. unfold broadcast. now rewrite H, Nat.eqb_refl.
Qed.

(** A stretched left operand: the result has the length of the right one. *)
Lemma broadcast_singleton_l {A B D} (op : A -> B -> D) x b :
  broadcast op [x] b = Ok (map (op x) b).
Proof.
  unfold broadcast. destruct b as [|y [|y' b]]; simpl; reflexivity.
Qed.

Lemma broadcast_singleton_r {A B D} (op : A -> B -> D) a y :
  broadcast op a [y] = Ok (map (fun x => op x y) a).
Proof.
  unfold broadcast. destruct a as [|x [|x' a]]; simpl; reflexivity.
Qed.

(** The length of a broadcast result. *)
Lemma broadcast_length_cases {A B D} (op : A -> B -> D) a b r :
  broadcast op a b = Ok r ->
  (length a = length b /\ length r = length b)
  \/ (length a = 1%nat /\ length r = length b)
  \/ (length b = 1%nat /\ length r = length a).
Proof.
  unfold broadcast. destruct (Nat.eqb_spec (length a) (length b)) as [E|E].
  - intros [= <-]. left. rewrite zip_with_length; auto.
  - destruct a as [|x [|x' a]]; destruct b as [|y [|y' b]];
      try discriminate; intros [= <-]; simpl; rewrite ?length_map; auto.
Qed.

Lemma broadcast_length_l {A B D} (op : A -> B -> D) a b r :
  broadcast op a b = Ok r -> length a <> 1%nat -> length r = length a.
Proof.
  intros H Ha. apply broadcast_length_cases in H as [[E H]|[[E H]|[E H]]];
    congruence.
Qed.

Lemma broadcast_length_r {A B D} (op : A -> B -> D) a b r :
  broadcast op a b = Ok r -> length b <> 1%nat -> length r = length b.
Proof.
  intros H Ha. apply broadcast_length_cases in H as [[E H]|[[E H]|[E H]]];
    congruence.
Qed.

(** Shapes that neither agree nor contain a length of one do not combine. *)
Lemma broadcast_mismatch {A B D} (op : A -> B -> D) a b :
  length a <> length b -> length a <> 1%nat -> length b <> 1%nat ->
  broadcast op a b = Raise ValueError.
Proof.
  intros Hab Ha Hb. unfold broadcast.
  destruct (Nat.eqb_spec (length a) (length b)) as [E|_]; [contradiction|].
  destruct a as [|x [|x' a]]; destruct b as [|y [|y' b]];
    simpl in *; congruence.
Qed.

Lemma arange_length start stop step :
  length (arange start stop step)
  = Z.to_nat ((stop - start + step - 1) / step).
Proof. unfold arange. now rewrite length_map, length_seq. Qed.

Lemma arange_nth start stop step i :
  (i < Z.to_nat ((stop - start + step - 1) / step))%nat ->
  nth_error (arange start stop step) i
  = Some (IZR (start + Z.of_nat i * step)).
Proof.
  intros H. unfold arange. rewrite nth_error_map, nth_error_seq.
  apply Nat.ltb_lt in H. now rewrite H.
Qed.

(** The default grid has 995 entries, from 50 Hz in steps of 10 Hz. *)
Lemma freq_length : length freq = 995%nat.
Proof. unfold freq. rewrite arange_length. reflexivity. Qed.

Lemma omega_length : length omega = 995%nat.
Proof. unfold omega. now rewrite length_map, freq_length. Qed.

Lemma k0_length : length k0 = 995%nat.
Proof. unfold k0. now rewrite length_map, omega_length. Qed.

Lemma freq_nth i :
  (i < 995)%nat -> nth_error freq i = Some (IZR (50 + Z.of_nat i * 10)).
Proof. intros H. unfold freq. now rewrite arange_nth. Qed.

Lemma k0_nth i :
  (i < 995)%nat ->
  nth_error k0 i = Some (2 * PI * IZR (50 + Z.of_nat i * 10) / c0).
Proof.
  intros H. unfold k0, omega. rewrite !nth_error_map, freq_nth by assumption.
  reflexivity.
Qed.

Lemma k0_as_map : k0 = map (fun x => 2 * PI * x / c0) freq.
Proof. unfold k0, omega. now rewrite map_map. Qed.

(** The grids are handled through the lemmas above, not by unfolding. *)
#[local] Opaque freq omega k0.

(** ** Complex arithmetic *)

Lemma complex_eq (a b : complex) : Re a = Re b -> Im a = Im b -> a = b.
Proof. destruct a, b; simpl; intros -> ->; reflexivity. Qed.

(** Closes an identity of the complex ring by comparing both parts. *)
Ltac cring :=
  apply complex_eq;
  unfold Cadd, Csub, Cmul, Copp, RtoC, Ci; simpl; ring.

Lemma Cmul_opp_l a b : ((- a) * b)%C = (- (a * b))%C.
Proof. cring. Qed.

Lemma Cnorm2_nonneg a : 0 <= Cnorm2 a.
Proof. unfold Cnorm2. nra. Qed.

Lemma Cabs_sqr a : Cabs a ^ 2 = Cnorm2 a.
Proof.
  unfold Cabs. simpl. rewrite Rmult_1_r. apply sqrt_sqrt, Cnorm2_nonneg.
Qed.

Lemma Re_le_Cabs a : - Cabs a <= Re a <= Cabs a.
Proof.
  assert (H : Rabs (Re a) <= Cabs a).
  { unfold Cabs. rewrite <- sqrt_Rsqr_abs. apply sqrt_le_1_alt.
    unfold Cnorm2, Rsqr. nra. }
  pose proof (Rle_abs (Re a)). pose proof (Rle_abs (- Re a)) as H'.
  rewrite Rabs_Ropp in H'. lra.
Qed.

(** The square root taken by [Csqrt] has a non-negative real part. *)
Lemma Csqrt_Re_nonneg a : 0 <= Re (Csqrt a).
Proof. simpl. apply sqrt_pos. Qed.

(** On the cut, where the real part of the root vanishes, the root taken has
    a non-negative imaginary part. *)
Lemma Csqrt_Im_on_cut a : Re (Csqrt a) = 0 -> 0 <= Im (Csqrt a).
Proof.
  simpl. intros H0.
  pose proof (Re_le_Cabs a) as Hre.
  pose proof (Cabs_sqr a) as Hsq. unfold Cnorm2 in Hsq.
  apply sqrt_eq_0 in H0; [|lra].
  assert (Him : Im a = 0) by (simpl in Hsq; nra).
  destruct (Rle_dec 0 (Im a)) as [_|Hn]; [|lra].
  rewrite Rmult_1_l. apply sqrt_pos.
Qed.

(** [Csqrt] is a square root. *)
Lemma Csqrt_sqr a : (Csqrt a * Csqrt a)%C = a.
Proof.
  pose proof (Re_le_Cabs a) as Hre.
  pose proof (Cabs_sqr a) as Hsq. unfold Cnorm2 in Hsq.
  assert (Hp : 0 <= (Cabs a + Re a) / 2) by lra.
  assert (Hm : 0 <= (Cabs a - Re a) / 2) by lra.
  assert (Hprod : sqrt ((Cabs a + Re a) / 2) * sqrt ((Cabs a - Re a) / 2)
                  = Rabs (Im a) / 2).
  { rewrite <- sqrt_mult by assumption.
    replace ((Cabs a + Re a) / 2 * ((Cabs a - Re a) / 2))
      with ((Im a / 2) * (Im a / 2)) by (simpl in Hsq; nra).
    change (Im a / 2 * (Im a / 2)) with (Rsqr (Im a / 2)).
    rewrite sqrt_Rsqr_abs. unfold Rdiv. rewrite Rabs_mult.
    f_equal. apply Rabs_pos_eq. lra. }
  apply complex_eq; unfold Csqrt, Cmul; simpl.
  - destruct (Rle_dec 0 (Im a)).
    + replace (1 * sqrt ((Cabs a - Re a) / 2) * (1 * sqrt ((Cabs a - Re a) / 2)))
        with (sqrt ((Cabs a - Re a) / 2) * sqrt ((Cabs a - Re a) / 2)) by ring.
      rewrite !sqrt_sqrt by assumption. lra.
    + replace (-1 * sqrt ((Cabs a - Re a) / 2) * (-1 * sqrt ((Cabs a - Re a) / 2)))
        with (sqrt ((Cabs a - Re a) / 2) * sqrt ((Cabs a - Re a) / 2)) by ring.
      rewrite !sqrt_sqrt by assumption. lra.
  - destruct (Rle_dec 0 (Im a)) as [H|H].
    + rewrite (Rabs_pos_eq _ H) in Hprod. nra.
    + rewrite Rabs_left in Hprod by lra. nra.
Qed.

(** ** The store is only read *)

Lemma read_only_ret {A} (a : A) : read_only (ret a).
Proof. intros e; reflexivity. Qed.

Lemma read_only_global {A} (field : Env -> A) : read_only (global field).
Proof. intros e; reflexivity. Qed.

Lemma read_only_lift {A} (r : result A) : read_only (lift r).
Proof. intros e; reflexivity. Qed.

Lemma read_only_bind {A B} (m : M A) (k : A -> M B) :
  read_only m -> (forall a, read_only (k a)) -> read_only (bind m k).
Proof.
  intros Hm Hk e. unfold bind. specialize (Hm e).
  destruct (m e) as [[a|x] e']; simpl in *; subst; auto. apply Hk.
Qed.

Ltac read_only_tac :=
  repeat first
    [ apply read_only_ret | apply read_only_global | apply read_only_lift
    | apply read_only_bind; [| intros ? ]
    | match goal with |- read_only (match ?p with (_, _) => _ end) =>
        destruct p end ].

Lemma alpha_from_dkz_read_only d k z : read_only (alpha_from_dkz d k z).
Proof. unfold alpha_from_dkz. read_only_tac. Qed.

Lemma DBM_z_read_only f sigma : read_only (DBM_z f sigma).
Proof. unfold DBM_z. read_only_tac. Qed.

Lemma DBM_k_read_only f sigma : read_only (DBM_k f sigma).
Proof. unfold DBM_k. read_only_tac. Qed.

Lemma DBM_read_only f d sigma : read_only (DBM f d sigma).
Proof.
  unfold DBM.
  apply read_only_bind; [apply DBM_z_read_only | intros z].
  apply read_only_bind; [apply DBM_k_read_only | intros k].
  apply read_only_bind; [apply alpha_from_dkz_read_only | intros a].
  apply read_only_ret.
Qed.

Lemma JCA_kz_read_only f phi sigma tort v_length t_length :
  read_only (JCA_kz f phi sigma tort v_length t_length).
Proof. unfold JCA_kz. read_only_tac. Qed.

Lemma JCA_read_only f d phi sigma tort v_length t_length :
  read_only (JCA f d phi sigma tort v_length t_length).
Proof.
  unfold JCA.
  apply read_only_bind; [apply JCA_kz_read_only | intros [k z]].
  apply read_only_bind; [apply alpha_from_dkz_read_only | intros a].
  apply read_only_ret.
Qed.

Lemma twice_read_only {A} (m : M A) e :
  read_only m ->
  twice m e = (match fst (m e) with
               | Ok a => Ok (a, a)
               | Raise x => Raise x
               end, e).
Proof.
  intros H. unfold twice, bind, ret. pose proof (H e) as He.
  destruct (m e) as [[a|x] e'] eqn:E; simpl in *; subst; auto.
  rewrite E. reflexivity.
Qed.

(** ** The conversion [alpha_from_dkz] *)

(** The three array statements of the source, entry by entry, on arrays of
    one length. *)
Lemma absorption_pipeline (zref d : R) (kz : list (complex * complex)) :
  let zs := zip_with Cdiv (map (fun w => (- 1j * w)%C) (map snd kz))
              (map Ctan (map (fun w => (w * RtoC d)%C) (map fst kz))) in
  map (fun x => 1 - x)
    (map (fun x => x ^ 2)
       (map Cabs
          (zip_with Cdiv (map (fun w => (w - RtoC zref)%C) zs)
             (map (fun w => (w + RtoC zref)%C) zs))))
  = map (fun p => rigid_backed_absorption zref d (fst p) (snd p)) kz.
Proof.
  cbv zeta.
  rewrite !map_map, zip_with_map, zip_with_diag.
  rewrite !map_map, zip_with_map, zip_with_diag, map_map.
  apply map_ext. intros [k z]. unfold rigid_backed_absorption.
  cbn [fst snd]. now rewrite Cmul_opp_l.
Qed.

(** C5.  For every thickness [d] and every list of per-frequency pairs
    [(k, z)], [alpha_from_dkz] returns one real number per pair, in order,
    equal to [1 - |R|^2] with [R = (zs - z0) / (zs + z0)] and
    [zs = -j z / tan (k d)], [z0] being the module's air impedance. *)
Theorem alpha_from_dkz_formula (d : R) (kz : list (complex * complex)) :
  eval (alpha_from_dkz d (map fst kz) (map snd kz))
  = Ok (map (fun p => rigid_backed_absorption z0 d (fst p) (snd p)) kz).
Proof.
  unfold eval, alpha_from_dkz, bind, lift, global, ret.
  rewrite broadcast_same by (now rewrite !length_map).
  rewrite broadcast_same by (now rewrite !length_map).
  cbn [fst snd g_z0 module_env]. f_equal.
  apply absorption_pipeline.
Qed.

(** The same under any store: the impedance read is the store's. *)
Lemma alpha_from_dkz_pairs d (kz : list (complex * complex)) e :
  alpha_from_dkz d (map fst kz) (map snd kz) e
  = (Ok (map (fun p => rigid_backed_absorption (g_z0 e) d (fst p) (snd p)) kz),
     e).
Proof.
  unfold alpha_from_dkz, bind, lift, global, ret.
  rewrite broadcast_same by (now rewrite !length_map).
  rewrite broadcast_same by (now rewrite !length_map).
  now rewrite absorption_pipeline.
Qed.

(** Inversion of a successful [bind]. *)
Lemma bind_Ok {A B} (m : M A) (k : A -> M B) e b :
  fst (bind m k e) = Ok b ->
  exists a e', m e = (Ok a, e') /\ fst (k a e') = Ok b.
Proof.
  unfold bind. destruct (m e) as [[a|x] e']; simpl; [eauto | discriminate].
Qed.

(** Whatever the store, a successful conversion returns [1 - |R|^2] for some
    array [R]. *)
Lemma alpha_from_dkz_shape d k z e out :
  fst (alpha_from_dkz d k z e) = Ok out ->
  exists R, out = map (fun r => 1 - Cabs r ^ 2) R.
Proof.
  unfold alpha_from_dkz, bind, lift, global, ret.
  destruct (broadcast Cdiv _ _) as [zs|x]; [|discriminate].
  destruct (broadcast Cdiv _ _) as [R|x]; [|discriminate].
  cbn [fst]. intros [= <-]. exists R. now rewrite !map_map.
Qed.

Lemma absorption_le_1 (R : list complex) :
  Forall (fun a => a <= 1) (map (fun r => 1 - Cabs r ^ 2) R).
Proof.
  apply Forall_forall. intros a Ha. apply in_map_iff in Ha as (r & <- & _).
  rewrite Cabs_sqr. pose proof (Cnorm2_nonneg r). lra.
Qed.

Lemma Ctan_real x : cos x <> 0 -> Ctan (mkC x 0) = mkC (tan x) 0.
Proof.
  intros Hc. unfold Ctan, Cdiv, Csin, Ccos, Cnorm2. simpl.
  rewrite cosh_0, sinh_0. unfold tan.
  apply complex_eq; simpl; field; nra.
Qed.

Lemma Cnorm2_div a b :
  Cnorm2 b <> 0 -> Cnorm2 (a / b) = Cnorm2 a / Cnorm2 b.
Proof.
  intros H. unfold Cnorm2 in *. unfold Cdiv, Cnorm2. simpl. field. exact H.
Qed.

(** A medium with [z = -j] and [k d = pi / 4] has [zs = -1]: the reflection
    coefficient exceeds one in modulus and the absorption is negative. *)
Lemma negative_absorption :
  rigid_backed_absorption z0 1 (mkC (PI / 4) 0) (mkC 0 (-1)) < 0.
Proof.
  unfold rigid_backed_absorption.
  replace (mkC (PI / 4) 0 * RtoC 1)%C with (mkC (PI / 4) 0) by cring.
  rewrite Ctan_real.
  2:{ rewrite cos_PI4. apply Rgt_not_eq.
      apply Rdiv_lt_0_compat; [lra|]. apply sqrt_lt_R0; lra. }
  rewrite tan_PI4.
  replace (- (1j * mkC 0 (-1)) / mkC 1 0)%C with (mkC (-1) 0).
  2:{ apply complex_eq; unfold Cdiv, Cnorm2, Copp, Cmul, Ci; simpl; field. }
  cbv zeta. rewrite Cabs_sqr.
  assert (Hz : z0 = 416.059) by (unfold z0, rho0, c0; lra).
  rewrite Cnorm2_div; unfold Cnorm2, Csub, Cadd, RtoC; simpl; rewrite Hz.
  - apply Rlt_minus.
    apply Rmult_lt_reg_r
      with ((-1 + 416.059) * (-1 + 416.059) + (0 + 0) * (0 + 0)); [lra|].
    unfold Rdiv. rewrite Rmult_assoc, Rinv_l by lra. lra.
  - lra.
Qed.

(** C10.  Every entry returned by [alpha_from_dkz], and so every entry
    returned by [DBM] and by [JCA], is at most 1; an entry can be negative,
    as for the non-passive medium [z = -j] at [k d = pi / 4]. *)
Theorem absorption_at_most_one :
  (forall d k z out,
      eval (alpha_from_dkz d k z) = Ok out -> Forall (fun a => a <= 1) out)
  /\ (forall f d sigma out,
        eval (DBM f d sigma) = Ok out -> Forall (fun a => a <= 1) out)
  /\ (forall f d phi sigma tort v_length t_length out,
        eval (JCA f d phi sigma tort v_length t_length) = Ok out ->
        Forall (fun a => a <= 1) out)
  /\ (exists d k z a,
        eval (alpha_from_dkz d [k] [z]) = Ok [a] /\ a < 0).
Proof.
  repeat split.
  - intros d k z out H. apply alpha_from_dkz_shape in H as [R ->].
    apply absorption_le_1.
  - intros f d sigma out H. unfold eval, DBM in H.
    apply bind_Ok in H as (z & e1 & _ & H).
    apply bind_Ok in H as (k & e2 & _ & H).
    apply bind_Ok in H as (a & e3 & Ha & H).
    cbn in H. injection H as <-.
    assert (Ha' : fst (alpha_from_dkz d k z e2) = Ok a) by now rewrite Ha.
    apply alpha_from_dkz_shape in Ha' as [R ->]. apply absorption_le_1.
  - intros f d phi sigma tort v_length t_length out H. unfold eval, JCA in H.
    apply bind_Ok in H as ([k z] & e1 & _ & H).
    apply bind_Ok in H as (a & e2 & Ha & H).
    cbn in H. injection H as <-.
    assert (Ha' : fst (alpha_from_dkz d k z e1) = Ok a) by now rewrite Ha.
    apply alpha_from_dkz_shape in Ha' as [R ->]. apply absorption_le_1.
  - exists 1, (mkC (PI / 4) 0), (mkC 0 (-1)).
    exists (rigid_backed_absorption z0 1 (mkC (PI / 4) 0) (mkC 0 (-1))).
    split; [|apply negative_absorption].
    unfold eval.
    change [mkC 0 (-1)] with (map snd [(mkC (PI / 4) 0, mkC 0 (-1))]).
    change [mkC (PI / 4) 0] with (map fst [(mkC (PI / 4) 0, mkC 0 (-1))]).
    rewrite alpha_from_dkz_pairs. reflexivity.
Qed.

(** At a concrete input: every entry of [alpha_from_dkz] for [d = 1],
    [k = pi / 4], [z = -j] is at most 1. *)
Lemma absorption_at_most_one_witness :
  exists out,
    eval (alpha_from_dkz 1 [mkC (PI / 4) 0] [mkC 0 (-1)]) = Ok out
    /\ Forall (fun a => a <= 1) out.
Proof.
  eexists. split; [reflexivity|].
  apply (proj1 absorption_at_most_one 1 [mkC (PI / 4) 0] [mkC 0 (-1)]).
  reflexivity.
Defined.

(** ** Purity of the entry points *)

(** C9.  From any store, two calls of [DBM] in a row with the same arguments
    end with the same outcome (the same array, or the same exception) and
    leave the store as it was; the same holds for [JCA]. *)
Theorem entry_points_deterministic :
  forall (e : Env) (f : list R) (d phi sigma tort v_length t_length : R),
    twice (DBM f d sigma) e
    = (match fst (DBM f d sigma e) with
       | Ok a => Ok (a, a)
       | Raise x => Raise x
       end, e)
    /\ twice (JCA f d phi sigma tort v_length t_length) e
       = (match fst (JCA f d phi sigma tort v_length t_length e) with
          | Ok a => Ok (a, a)
          | Raise x => Raise x
          end, e).
Proof.
  intros e f d phi sigma tort v_length t_length. split.
  - apply twice_read_only, DBM_read_only.
  - apply twice_read_only, JCA_read_only.
Qed.

(** ** The fluid *)

Lemma py_div_nonzero x y : y <> 0 -> py_div x y = Ok (x / y).
Proof. intros H. unfold py_div. destruct (Req_dec_T y 0); tauto. Qed.

Lemma py_div_zero x y : y = 0 -> py_div x y = Raise ZeroDivisionError.
Proof. intros H. unfold py_div. destruct (Req_dec_T y 0); tauto. Qed.

Lemma Fluid_init_Ok (a : FluidArgs.t) :
  FluidArgs.R_ a * (FluidArgs.T0 a + 273.15) <> 0 ->
  FluidArgs.T0 a + 273.15 + FluidArgs.C a <> 0 ->
  FluidArgs.Tref a <> 0 ->
  kappa_fit (FluidArgs.T0 a + 273.15) <> 0 ->
  Fluid.init a = Ok (fluid_of a).
Proof.
  intros H1 H2 H3 H4. unfold Fluid.init. cbv zeta.
  rewrite (py_div_nonzero _ _ H1). cbn [rbind].
  rewrite (py_div_nonzero _ _ H2). cbn [rbind].
  rewrite (py_div_nonzero _ _ H3). cbn [rbind].
  fold (kappa_fit (FluidArgs.T0 a + 273.15)). fold (Cp_fit (FluidArgs.T0 a)).
  rewrite (py_div_nonzero _ _ H4). cbn [rbind].
  unfold fluid_of, float_pow. cbv zeta.
  replace (3.0 / 2.0) with (3 / 2) by lra. reflexivity.
Qed.

Lemma Fluid_init_zero_density_divisor (a : FluidArgs.t) :
  FluidArgs.R_ a * (FluidArgs.T0 a + 273.15) = 0 ->
  Fluid.init a = Raise ZeroDivisionError.
Proof.
  intros H. unfold Fluid.init. cbv zeta. now rewrite (py_div_zero _ _ H).
Qed.

Lemma Cp_fit_cubic : cubic Cp_fit.
Proof.
  exists (1e3 * 1.0062), (1e3 * 3.6028e-5), (- (1e3 * 1.0855e-6)),
    (1e3 * 1.3791e-8).
  split; [lra|]. intros t. unfold Cp_fit. ring.
Qed.

Lemma kappa_fit_cubic : cubic (fun T0 => kappa_fit (T0 + 273.15)).
Proof.
  exists (kappa_fit 273.15),
    (3 * 1.5207e-11 * 273.15 ^ 2 - 2 * 4.8574e-8 * 273.15 + 1.0184e-4),
    (3 * 1.5207e-11 * 273.15 - 4.8574e-8),
    1.5207e-11.
  split; [lra|]. intros t. unfold kappa_fit. ring.
Qed.

(** The default fluid: air at 20 degrees Celsius and one atmosphere. *)
Lemma kappa_default : kappa_fit (20.0 + 273.15) <> 0.
Proof. unfold kappa_fit. lra. Qed.

Lemma Fluid_init_default :
  Fluid.init FluidArgs.default = Ok (fluid_of FluidArgs.default).
Proof.
  apply Fluid_init_Ok; cbn [FluidArgs.default FluidArgs.R_ FluidArgs.T0
    FluidArgs.C FluidArgs.Tref]; try lra.
  apply kappa_default.
Qed.

Lemma sqrt_between (lo hi x : R) :
  0 <= lo -> 0 <= hi -> lo ^ 2 <= x <= hi ^ 2 -> lo <= sqrt x <= hi.
Proof.
  intros Hlo Hhi [H1 H2]. split.
  - rewrite <- (sqrt_pow2 lo Hlo). now apply sqrt_le_1_alt.
  - rewrite <- (sqrt_pow2 hi Hhi). now apply sqrt_le_1_alt.
Qed.

Lemma default_density_value :
  1.2041 <= Fluid.rho (fluid_of FluidArgs.default) <= 1.2042.
Proof.
  cbn [fluid_of Fluid.rho FluidArgs.default FluidArgs.P0 FluidArgs.R_
       FluidArgs.T0].
  assert (H : 0 < 287.05 * (20.0 + 273.15)) by lra.
  split.
  - apply Rmult_le_reg_r with (287.05 * (20.0 + 273.15)); [exact H|].
    unfold Rdiv. rewrite Rmult_assoc, Rinv_l by lra. lra.
  - apply Rmult_le_reg_r with (287.05 * (20.0 + 273.15)); [exact H|].
    unfold Rdiv. rewrite Rmult_assoc, Rinv_l by lra. lra.
Qed.

Lemma default_sound_speed_value :
  343.2 <= Fluid.co (fluid_of FluidArgs.default) <= 343.3.
Proof.
  cbn [fluid_of Fluid.co FluidArgs.default FluidArgs.adia FluidArgs.R_
       FluidArgs.T0].
  apply sqrt_between; lra.
Qed.

(** C4, as the code has it.  The environment constants are literals:
    [rho0 = 1.213], [c0 = 343.0] and [z0 = rho0 * c0].  The fluid built with
    the default arguments has the density [P0 / (R * TK)], which is within
    0.001 of 1.2045 and is not [rho0], and the adiabatic sound speed
    [sqrt (gamma * R * TK)], which is within 0.2 of 343.2 and from which
    [c0] differs by at most 0.1 percent of [c0]. *)
Theorem environment_constants :
  rho0 = 1.213 /\ c0 = 343.0 /\ z0 = rho0 * c0
  /\ exists fl,
      Fluid.init FluidArgs.default = Ok fl
      /\ Fluid.rho fl = 101325.0 / (287.05 * (20.0 + 273.15))
      /\ Rabs (Fluid.rho fl - 1.2045) <= 0.001
      /\ rho0 <> Fluid.rho fl
      /\ Fluid.co fl = sqrt (1.4 * (287.05 * (20.0 + 273.15)))
      /\ Rabs (Fluid.co fl - 343.2) <= 0.2
      /\ Rabs (Fluid.co fl - c0) <= 0.001 * c0.
Proof.
  repeat split; try reflexivity.
  exists (fluid_of FluidArgs.default).
  pose proof default_density_value as Hrho.
  pose proof default_sound_speed_value as Hco.
  split; [apply Fluid_init_default|].
  repeat split; try reflexivity.
  - apply Rabs_le. lra.
  - unfold rho0. lra.
  - apply Rabs_le. lra.
  - apply Rabs_le. unfold c0. lra.
Qed.

(** The claim C4 fails on the module: [rho0] is not the density of the
    default fluid, and it is farther than 0.001 from 1.2045. *)
Lemma rho0_is_not_default_density :
  exists fl,
    Fluid.init FluidArgs.default = Ok fl
    /\ rho0 <> Fluid.rho fl
    /\ 0.001 < Rabs (rho0 - 1.2045).
Proof.
  exists (fluid_of FluidArgs.default).
  pose proof default_density_value as Hrho.
  split; [apply Fluid_init_default|]. split.
  - unfold rho0. lra.
  - unfold rho0. rewrite Rabs_pos_eq; lra.
Qed.

(** C7, as the code has it.  For constructor arguments whose divisors
    [R * TK], [TK + C], [Tref] and [kappa] are not zero and whose ratio
    [TK / Tref] is positive, [Fluid] computes [TK = T0 + 273.15],
    [rho = P0 / (R * TK)], Sutherland's viscosity, the sound speed
    [sqrt (gamma * R * TK)], [Pr = Cp * Eta / kappa], and [Cp] and [kappa]
    as fixed polynomials of degree three in [T0].  When [R * TK] is zero the
    constructor raises [ZeroDivisionError]. *)
Theorem Fluid_properties (a : FluidArgs.t) :
  let TK := FluidArgs.T0 a + 273.15 in
  (FluidArgs.R_ a * TK = 0 -> Fluid.init a = Raise ZeroDivisionError)
  /\ (FluidArgs.R_ a * TK <> 0 ->
      TK + FluidArgs.C a <> 0 ->
      FluidArgs.Tref a <> 0 ->
      0 < TK / FluidArgs.Tref a ->
      kappa_fit TK <> 0 ->
      exists fl,
        Fluid.init a = Ok fl
        /\ Fluid.TK fl = TK
        /\ Fluid.rho fl = FluidArgs.P0 a / (FluidArgs.R_ a * TK)
        /\ Fluid.Eta fl
           = FluidArgs.Eta0 a
             * ((FluidArgs.Tref a + FluidArgs.C a) / (TK + FluidArgs.C a))
             * Rpower (TK / FluidArgs.Tref a) 1.5
        /\ Fluid.co fl = sqrt (FluidArgs.adia a * FluidArgs.R_ a * TK)
        /\ Fluid.Pr fl = Fluid.Cp fl * Fluid.Eta fl / Fluid.kappa fl
        /\ Fluid.Cp fl = Cp_fit (FluidArgs.T0 a)
        /\ Fluid.kappa fl = kappa_fit (FluidArgs.T0 a + 273.15)
        /\ cubic Cp_fit
        /\ cubic (fun T0 => kappa_fit (T0 + 273.15))).
Proof.
  intros TK. split; [apply Fluid_init_zero_density_divisor|].
  intros H1 H2 H3 _ H4. exists (fluid_of a).
  split; [now apply Fluid_init_Ok|].
  unfold fluid_of; cbn [Fluid.TK Fluid.rho Fluid.Eta Fluid.co Fluid.Pr
                        Fluid.Cp Fluid.kappa]; fold TK.
  repeat split; try reflexivity.
  - replace (3 / 2) with 1.5 by lra. reflexivity.
  - now rewrite Rmult_assoc.
  - apply Cp_fit_cubic.
  - apply kappa_fit_cubic.
Qed.

(** At the default arguments. *)
Lemma Fluid_properties_witness :
  exists fl,
    Fluid.init FluidArgs.default = Ok fl
    /\ Fluid.TK fl = 20.0 + 273.15
    /\ Fluid.rho fl = 101325.0 / (287.05 * (20.0 + 273.15)).
Proof.
  assert (Hpos : 0 < (20.0 + 273.15) / 291.15).
  { unfold Rdiv. apply Rmult_lt_0_compat; [lra|].
    apply Rinv_0_lt_compat; lra. }
  pose proof (proj2 (Fluid_properties FluidArgs.default)) as H.
  cbn [FluidArgs.default FluidArgs.R_ FluidArgs.T0 FluidArgs.C
       FluidArgs.Tref FluidArgs.P0] in H.
  destruct H as (fl & H0 & H1 & H2 & _);
    [lra | lra | lra | exact Hpos | exact kappa_default |].
  exists fl. repeat split; assumption.
Defined.

(** The claim C7 fails for a gas constant of zero, and for a temperature
    of absolute zero: the first division of the constructor raises. *)
Lemma Fluid_init_raises :
  Fluid.init {| FluidArgs.T0 := 20.0; FluidArgs.P0 := 101325.0;
                FluidArgs.R_ := 0; FluidArgs.adia := 1.4;
                FluidArgs.Tref := 291.15; FluidArgs.C := 120.0;
                FluidArgs.Eta0 := 18.07e-6 |}
  = Raise ZeroDivisionError
  /\ Fluid.init {| FluidArgs.T0 := -273.15; FluidArgs.P0 := 101325.0;
                   FluidArgs.R_ := 287.05; FluidArgs.adia := 1.4;
                   FluidArgs.Tref := 291.15; FluidArgs.C := 120.0;
                   FluidArgs.Eta0 := 18.07e-6 |}
     = Raise ZeroDivisionError.
Proof.
  split; apply Fluid_init_zero_density_divisor;
    cbn [FluidArgs.R_ FluidArgs.T0]; lra.
Qed.

(** A constructor that returns has built [fluid_of], and its [kappa] is not
    zero. *)
Lemma Fluid_init_inv (a : FluidArgs.t) (fl : Fluid.t) :
  Fluid.init a = Ok fl -> fl = fluid_of a /\ Fluid.kappa fl <> 0.
Proof.
  unfold Fluid.init, py_div. cbv zeta.
  destruct (Req_dec_T _ 0) as [|H1]; [discriminate|]. cbn [rbind].
  destruct (Req_dec_T _ 0) as [|H2]; [discriminate|]. cbn [rbind].
  destruct (Req_dec_T _ 0) as [|H3]; [discriminate|]. cbn [rbind].
  destruct (Req_dec_T _ 0) as [|H4]; [discriminate|]. cbn [rbind].
  intros [= <-]. split; [|exact H4].
  unfold fluid_of, float_pow, Cp_fit, kappa_fit. cbv zeta.
  replace (3.0 / 2.0) with (3 / 2) by lra. reflexivity.
Qed.

(** ** The effective medium [rho_c_JCA] *)

Lemma Ci_scale3 a b c :
  (1j * RtoC a * RtoC b * RtoC c)%C = (1j * RtoC (a * b * c))%C.
Proof. cring. Qed.

Lemma Ci_scale4 a b c d :
  (1j * RtoC a * RtoC b * RtoC c * RtoC d)%C = (1j * RtoC (a * b * c * d))%C.
Proof. cring. Qed.

Lemma Ci_scale_assoc a b c d :
  (1j * RtoC a * RtoC (b * c * d))%C = (1j * RtoC (a * b * c * d))%C.
Proof. cring. Qed.

Lemma C4i_scale4 a b c d :
  (4j * RtoC a * RtoC b * RtoC c * RtoC d)%C = (4j * RtoC (a * b * c * d))%C.
Proof. cring. Qed.

(** The arrays computed by [rho_c_JCA], entry by entry. *)
Lemma rho_c_JCA_entries (freq : list R)
      (phi sigma alpha v_length t_length : R)
      (args : FluidArgs.t) (fl : Fluid.t) :
  Fluid.init args = Ok fl -> phi <> 0 ->
  rho_c_JCA freq phi sigma alpha v_length t_length args
  = Ok (map (fun f => rho_eff fl phi sigma alpha v_length (2 * PI * f)) freq,
        map (fun f => c_eff fl phi sigma alpha v_length t_length (2 * PI * f))
          freq).
Proof.
  intros Hfl Hphi. unfold rho_c_JCA. rewrite Hfl. cbn [rbind].
  apply Fluid_init_inv in Hfl as [Hfl Hk].
  assert (HPr : Fluid.Pr fl = Fluid.Cp fl * Fluid.Eta fl / Fluid.kappa fl)
    by (rewrite Hfl; reflexivity).
  rewrite (py_div_nonzero _ _ Hk). cbn [rbind].
  rewrite (py_div_nonzero _ _ Hphi). cbn [rbind].
  rewrite !map_map.
  rewrite broadcast_same by (now rewrite !length_map).
  cbn [rbind].
  rewrite (py_div_nonzero _ _ Hphi). cbn [rbind].
  rewrite broadcast_same by (now rewrite !length_map).
  cbn [rbind].
  rewrite !zip_with_map, !zip_with_diag, !map_map.
  rewrite broadcast_same by (now rewrite !length_map).
  cbn [rbind].
  rewrite !zip_with_map, !zip_with_diag, !map_map.
  assert (Hrho : forall x,
    (RtoC (alpha * Fluid.rho fl / phi) *
     (RtoC 1 +
      RtoC (sigma * phi) /
      (1j * RtoC (Fluid.rho fl) * RtoC (2 * PI * x) * RtoC alpha) *
      Csqrt
        (RtoC 1 +
         4j * RtoC (alpha ^ 2) * RtoC (Fluid.Eta fl) *
         RtoC (Fluid.rho fl) * RtoC (2 * PI * x) /
         RtoC (sigma ^ 2 * v_length ^ 2 * phi ^ 2))))%C
    = rho_eff fl phi sigma alpha v_length (2 * PI * x)).
  { intros x. unfold rho_eff, G, G_arg.
    now rewrite Ci_scale3, C4i_scale4. }
  f_equal. f_equal; apply map_ext; intros x.
  - apply Hrho.
  - rewrite Hrho. unfold c_eff, K, H, H_arg. rewrite HPr.
    now rewrite Ci_scale4, Ci_scale_assoc.
Qed.

(** C6.  For a fluid [fl] built by the constructor and a porosity that is
    not zero, [rho_c_JCA] returns, for every frequency [f] of its array and
    with [w = 2 pi f], the effective density
    [alpha rho / phi (1 + sigma phi / (j rho w alpha) G)] and the sound speed
    [sqrt (K / rho_eff)], [K] as in the specification; [G] and [H] are the
    square roots of their arguments on the principal branch: a non-negative
    real part and, on the cut, a non-negative imaginary part. *)
Theorem rho_c_JCA_formula (freq : list R)
        (phi sigma alpha v_length t_length : R)
        (args : FluidArgs.t) (fl : Fluid.t) :
  Fluid.init args = Ok fl -> phi <> 0 ->
  rho_c_JCA freq phi sigma alpha v_length t_length args
  = Ok (map (fun f => rho_eff fl phi sigma alpha v_length (2 * PI * f)) freq,
        map (fun f => c_eff fl phi sigma alpha v_length t_length (2 * PI * f))
          freq)
  /\ (forall w,
        (G fl phi sigma alpha v_length w * G fl phi sigma alpha v_length w)%C
        = G_arg fl phi sigma alpha v_length w
        /\ 0 <= Re (G fl phi sigma alpha v_length w)
        /\ (Re (G fl phi sigma alpha v_length w) = 0 ->
            0 <= Im (G fl phi sigma alpha v_length w)))
  /\ (forall w,
        (H fl t_length w * H fl t_length w)%C = H_arg fl t_length w
        /\ 0 <= Re (H fl t_length w)
        /\ (Re (H fl t_length w) = 0 -> 0 <= Im (H fl t_length w))).
Proof.
  intros Hfl Hphi. split; [now apply rho_c_JCA_entries|].
  split; intros w;
    (split; [apply Csqrt_sqr
            | split; [apply Csqrt_Re_nonneg | apply Csqrt_Im_on_cut]]).
Qed.

(** At 100 Hz, for the default fluid and the material of the user
    interface's defaults. *)
Lemma rho_c_JCA_formula_witness :
  rho_c_JCA [100] 0.99 15000 1.01 87.4e-6 196e-6 FluidArgs.default
  = Ok ([rho_eff (fluid_of FluidArgs.default) 0.99 15000 1.01 87.4e-6
           (2 * PI * 100)],
        [c_eff (fluid_of FluidArgs.default) 0.99 15000 1.01 87.4e-6 196e-6
           (2 * PI * 100)]).
Proof.
  assert (Hphi : 0.99 <> 0) by lra.
  exact (proj1 (rho_c_JCA_formula [100] 0.99 15000 1.01 87.4e-6 196e-6
                  FluidArgs.default (fluid_of FluidArgs.default)
                  Fluid_init_default Hphi)).
Defined.

(** ** The entry points *)

Lemma DBM_z_run f sigma e :
  DBM_z f sigma e
  = (Ok (map (fun x => (RtoC (g_z0 e) * miki_z_factor sigma x)%C) f), e).
Proof.
  unfold DBM_z, bind, global, lift, ret.
  rewrite broadcast_same by (now rewrite !length_map).
  rewrite !map_map, zip_with_map, zip_with_diag, map_map.
  f_equal. f_equal. apply map_ext. intros x.
  unfold miki_z_factor, miki_X, float_pow.
  replace (1e3 * x / sigma) with (1000 * x / sigma) by lra.
  f_equal. cring.
Qed.

Lemma DBM_k_run f sigma e :
  DBM_k f sigma e
  = (broadcast (fun x y => (RtoC x * y)%C) (g_k0 e)
       (map (miki_k_factor sigma) f), e).
Proof.
  unfold DBM_k, bind, global, lift, ret.
  rewrite broadcast_same by (now rewrite !length_map).
  rewrite !map_map, zip_with_map, zip_with_diag.
  f_equal. f_equal. apply map_ext. intros x.
  unfold miki_k_factor, miki_X, float_pow.
  replace (1e3 * x / sigma) with (1000 * x / sigma) by lra.
  cring.
Qed.

Lemma alpha_from_dkz_run d k z e :
  alpha_from_dkz d k z e
  = (rbind (broadcast Cdiv (map (fun w => (- 1j * w)%C) z)
              (map Ctan (map (fun w => (w * RtoC d)%C) k)))
       (fun zs =>
          Ok (map (fun w => 1 - Cabs ((w - RtoC (g_z0 e))
                                      / (w + RtoC (g_z0 e)))%C ^ 2) zs)),
     e).
Proof.
  unfold alpha_from_dkz, bind, lift, global, ret.
  destruct (broadcast Cdiv _ _) as [zs|x]; cbn [rbind]; [|reflexivity].
  rewrite broadcast_same by (now rewrite !length_map).
  now rewrite zip_with_map, zip_with_diag, !map_map.
Qed.

Lemma alpha_from_dkz_length d k z e out :
  fst (alpha_from_dkz d k z e) = Ok out ->
  length k <> 1%nat -> length out = length k.
Proof.
  rewrite alpha_from_dkz_run. cbn [fst].
  destruct (broadcast Cdiv _ _) as [zs|x] eqn:E; [|discriminate].
  cbn [rbind]. intros [= <-] Hk. rewrite length_map.
  apply broadcast_length_r in E; rewrite !length_map in *; auto.
Qed.

Lemma DBM_length f d sigma out :
  eval (DBM f d sigma) = Ok out -> length out = 995%nat.
Proof.
  unfold eval, DBM. intros H.
  apply bind_Ok in H as (z & e1 & Hz & H).
  rewrite DBM_z_run in Hz. injection Hz as <- <-.
  apply bind_Ok in H as (k & e2 & Hk & H).
  rewrite DBM_k_run in Hk. injection Hk as Hk <-.
  apply bind_Ok in H as (a & e3 & Ha & H).
  cbn in H. injection H as <-.
  assert (Hlen : length k = 995%nat).
  { apply broadcast_length_l in Hk; cbn [g_k0 module_env] in *;
      rewrite k0_length in *; auto. }
  apply (f_equal fst) in Ha. cbn [fst] in Ha.
  apply alpha_from_dkz_length in Ha; lia.
Qed.

Lemma DBM_Ok f d sigma :
  length f = 995%nat \/ length f = 1%nat ->
  exists out, eval (DBM f d sigma) = Ok out.
Proof.
  intros Hf. unfold eval, DBM, bind.
  rewrite DBM_z_run, DBM_k_run. cbn [g_k0 g_z0 module_env].
  destruct Hf as [Hf|Hf].
  - rewrite broadcast_same by (now rewrite length_map, k0_length).
    rewrite alpha_from_dkz_run.
    rewrite broadcast_same.
    + cbn. eauto.
    + rewrite !length_map, zip_with_length; rewrite ?length_map, k0_length; auto.
  - destruct f as [|x [|x' f]]; try discriminate.
    cbn [map]. rewrite broadcast_singleton_r.
    rewrite alpha_from_dkz_run. cbn [map]. rewrite broadcast_singleton_l.
    cbn. eauto.
Qed.

Lemma JCA_kz_run f phi sigma tort v_length t_length e :
  phi <> 0 ->
  let fl := fluid_of FluidArgs.default in
  JCA_kz f phi sigma tort v_length t_length e
  = (rbind (broadcast (fun x y => (RtoC x / y)%C)
              (map (fun x => x * 2) (map (fun x => x * PI) f))
              (map (fun g => c_eff fl phi sigma tort v_length t_length
                               (2 * PI * g)) (g_freq e)))
       (fun k =>
          Ok (k, map (fun g =>
                        (rho_eff fl phi sigma tort v_length (2 * PI * g)
                         * c_eff fl phi sigma tort v_length t_length
                             (2 * PI * g))%C) (g_freq e))),
     e).
Proof.
  intros Hphi fl. unfold JCA_kz, bind, global, lift, ret.
  rewrite (rho_c_JCA_entries _ _ _ _ _ _ _ _ Fluid_init_default Hphi).
  fold fl.
  destruct (broadcast _ _ _) as [k|x]; cbn [rbind]; [|reflexivity].
  rewrite broadcast_same by (now rewrite !length_map).
  now rewrite zip_with_map, zip_with_diag.
Qed.

Lemma JCA_phi_zero f d sigma tort v_length t_length e :
  fst (JCA f d 0 sigma tort v_length t_length e) = Raise ZeroDivisionError.
Proof.
  unfold JCA, JCA_kz, bind, global, lift, ret, rho_c_JCA.
  rewrite Fluid_init_default. cbn [rbind].
  rewrite py_div_nonzero by apply kappa_default. cbn [rbind].
  rewrite (py_div_zero _ 0) by reflexivity. reflexivity.
Qed.

Lemma JCA_length f d phi sigma tort v_length t_length out :
  eval (JCA f d phi sigma tort v_length t_length) = Ok out ->
  length out = 995%nat.
Proof.
  destruct (Req_dec_T phi 0) as [->|Hphi].
  { unfold eval. rewrite JCA_phi_zero. discriminate. }
  unfold eval, JCA. intros H.
  apply bind_Ok in H as ([k z] & e1 & Hkz & H).
  rewrite (JCA_kz_run _ _ _ _ _ _ _ Hphi) in Hkz.
  injection Hkz as Hkz <-. cbn [g_freq module_env] in Hkz.
  destruct (broadcast _ _ _) as [k'|x] eqn:Ek; [|discriminate].
  cbn [rbind] in Hkz. injection Hkz as -> <-.
  apply bind_Ok in H as (a & e2 & Ha & H).
  cbn in H. injection H as <-.
  assert (Hlen : length k = 995%nat).
  { apply broadcast_length_r in Ek.
    - now rewrite length_map, freq_length in Ek.
    - rewrite length_map, freq_length. lia. }
  apply (f_equal fst) in Ha. cbn [fst] in Ha.
  apply alpha_from_dkz_length in Ha; lia.
Qed.

Lemma JCA_Ok f d phi sigma tort v_length t_length :
  phi <> 0 -> length f = 995%nat \/ length f = 1%nat ->
  exists out, eval (JCA f d phi sigma tort v_length t_length) = Ok out.
Proof.
  intros Hphi Hf. unfold eval, JCA, bind.
  rewrite (JCA_kz_run _ _ _ _ _ _ _ Hphi). cbn [g_freq module_env].
  destruct Hf as [Hf|Hf].
  - rewrite broadcast_same by (now rewrite !length_map, freq_length).
    cbn [rbind]. rewrite alpha_from_dkz_run.
    rewrite broadcast_same.
    + cbn. eauto.
    + rewrite !length_map, zip_with_length;
        rewrite ?length_map, ?freq_length; auto.
  - destruct f as [|x [|x' f]]; try discriminate.
    cbn [map]. rewrite broadcast_singleton_l. cbn [rbind].
    rewrite alpha_from_dkz_run.
    rewrite broadcast_same by (now rewrite !length_map).
    cbn. eauto.
Qed.

Lemma DBM_shape_error f d sigma :
  length f <> 995%nat -> length f <> 1%nat ->
  eval (DBM f d sigma) = Raise ValueError.
Proof.
  intros H1 H2. unfold eval, DBM, bind.
  rewrite DBM_z_run, DBM_k_run. cbn [g_k0 g_z0 module_env].
  rewrite broadcast_mismatch; rewrite ?length_map, ?k0_length; auto.
Qed.

(** On the module's own grid the wavenumber of [DBM] is the one of the
    input frequencies, and [JCA] evaluates the medium at them. *)
Lemma DBM_k_on_grid sigma :
  eval (DBM_k freq sigma)
  = Ok (map (fun x => (RtoC (2 * PI * x / c0) * miki_k_factor sigma x)%C)
          freq).
Proof.
  unfold eval. rewrite DBM_k_run. cbn [fst g_k0 module_env].
  rewrite k0_as_map.
  rewrite broadcast_same by (now rewrite !length_map).
  now rewrite zip_with_map, zip_with_diag.
Qed.

Lemma JCA_kz_on_grid phi sigma tort v_length t_length :
  phi <> 0 ->
  let fl := fluid_of FluidArgs.default in
  eval (JCA_kz freq phi sigma tort v_length t_length)
  = Ok (map (fun x => (RtoC (x * PI * 2)
                       / c_eff fl phi sigma tort v_length t_length
                           (2 * PI * x))%C) freq,
        map (fun x => (rho_eff fl phi sigma tort v_length (2 * PI * x)
                       * c_eff fl phi sigma tort v_length t_length
                           (2 * PI * x))%C) freq).
Proof.
  intros Hphi fl. unfold eval. rewrite (JCA_kz_run _ _ _ _ _ _ _ Hphi).
  cbn [fst g_freq module_env].
  rewrite broadcast_same by (now rewrite !length_map).
  cbn [rbind]. now rewrite !map_map, zip_with_map, zip_with_diag.
Qed.

(** The conversion on two arrays computed from one list. *)
Lemma alpha_from_dkz_maps {A} d (kf zf : A -> complex) (l : list A) e :
  alpha_from_dkz d (map kf l) (map zf l) e
  = (Ok (map (fun x => rigid_backed_absorption (g_z0 e) d (kf x) (zf x)) l), e).
Proof.
  replace (map kf l) with (map fst (map (fun x => (kf x, zf x)) l))
    by (rewrite map_map; reflexivity).
  replace (map zf l) with (map snd (map (fun x => (kf x, zf x)) l))
    by (rewrite map_map; reflexivity).
  rewrite alpha_from_dkz_pairs. now rewrite map_map.
Qed.

(** End to end on the module's grid: one absorption per grid frequency,
    from the medium at that frequency. *)
Lemma DBM_on_grid d sigma :
  eval (DBM freq d sigma)
  = Ok (map (fun x =>
               rigid_backed_absorption z0 d
                 (RtoC (2 * PI * x / c0) * miki_k_factor sigma x)%C
                 (RtoC z0 * miki_z_factor sigma x)%C) freq).
Proof.
  pose proof (DBM_k_on_grid sigma) as Hk. unfold eval in Hk.
  unfold eval, DBM, bind. rewrite DBM_z_run.
  destruct (DBM_k freq sigma module_env) as [rk e] eqn:E.
  pose proof (DBM_k_read_only freq sigma module_env) as He.
  rewrite E in He. cbn [fst snd] in Hk, He. subst rk e.
  rewrite alpha_from_dkz_maps. reflexivity.
Qed.

Lemma JCA_on_grid d phi sigma tort v_length t_length :
  phi <> 0 ->
  let fl := fluid_of FluidArgs.default in
  eval (JCA freq d phi sigma tort v_length t_length)
  = Ok (map (fun x =>
               rigid_backed_absorption z0 d
                 (RtoC (x * PI * 2)
                  / c_eff fl phi sigma tort v_length t_length (2 * PI * x))%C
                 (rho_eff fl phi sigma tort v_length (2 * PI * x)
                  * c_eff fl phi sigma tort v_length t_length (2 * PI * x))%C)
          freq).
Proof.
  intros Hphi fl.
  pose proof (JCA_kz_on_grid phi sigma tort v_length t_length Hphi) as Hk.
  unfold eval in Hk. unfold eval, JCA, bind.
  destruct (JCA_kz freq phi sigma tort v_length t_length module_env)
    as [rk e] eqn:E.
  pose proof (JCA_kz_read_only freq phi sigma tort v_length t_length
                module_env) as He.
  rewrite E in He. cbn [fst snd] in Hk, He. subst rk e.
  fold fl. rewrite alpha_from_dkz_maps. reflexivity.
Qed.

Lemma JCA_shape_error f d phi sigma tort v_length t_length :
  phi <> 0 -> length f <> 995%nat -> length f <> 1%nat ->
  eval (JCA f d phi sigma tort v_length t_length) = Raise ValueError.
Proof.
  intros Hphi H1 H2. unfold eval, JCA, bind.
  rewrite (JCA_kz_run _ _ _ _ _ _ _ Hphi). cbn [g_freq module_env].
  rewrite broadcast_mismatch; rewrite ?length_map, ?freq_length; auto.
Qed.

Lemma miki_k_factor_Re sigma f : 0 < Re (miki_k_factor sigma f).
Proof.
  unfold miki_k_factor, Rpower. cbn.
  pose proof (exp_pos (-0.618 * ln (miki_X sigma f))). lra.
Qed.

Lemma Cscale_inj (a b : R) (F : complex) :
  Re F <> 0 -> (RtoC a * F)%C = (RtoC b * F)%C -> a = b.
Proof.
  intros HF E. apply (f_equal Re) in E. cbn [Re Im RtoC Cmul] in E.
  assert (E' : (a - b) * Re F = 0) by lra.
  apply Rmult_integral in E' as [E'|E']; [lra | contradiction].
Qed.

Lemma Some_eq_inv {A} (x y : A) : Some x = Some y -> x = y.
Proof. now intros [= ->]. Qed.

(** ** Alignment of the output with the input frequencies *)

(** C1 on the code.  For the one-entry frequency array [[100.0]] both entry
    points return 995 values, one per entry of the module's grid; for a
    two-entry array both raise [ValueError].  The claim asks for one value
    per input frequency. *)
Theorem output_length_at_short_input :
  (exists out,
      eval (DBM [100] 0.01 15000) = Ok out /\ length out = 995%nat)
  /\ (exists out,
        eval (JCA [100] 0.01 0.99 15000 1.01 87.4e-6 196e-6) = Ok out
        /\ length out = 995%nat)
  /\ eval (DBM [100; 200] 0.01 15000) = Raise ValueError
  /\ eval (JCA [100; 200] 0.01 0.99 15000 1.01 87.4e-6 196e-6)
     = Raise ValueError.
Proof.
  assert (Hphi : 0.99 <> 0) by lra.
  split; [|split; [|split]].
  - destruct (DBM_Ok [100] 0.01 15000) as [out H]; [now right|].
    exists out. split; [exact H|]. now apply DBM_length in H.
  - destruct (JCA_Ok [100] 0.01 0.99 15000 1.01 87.4e-6 196e-6 Hphi)
      as [out H]; [now right|].
    exists out. split; [exact H|]. now apply JCA_length in H.
  - apply DBM_shape_error; cbn; lia.
  - apply JCA_shape_error; cbn; auto; lia.
Qed.

(** C2 on the code.  For the one-entry frequency array [[100.0]], [JCA]
    hands to [alpha_from_dkz] an impedance [rho_eff c_eff] and a wavenumber
    [2 pi 100 / c_eff] whose effective density and sound speed are those of
    the 995 frequencies of the module's grid, which starts at 50 Hz; the
    claim asks for the medium at 100 Hz. *)
Theorem JCA_medium_on_default_grid :
  let fl := fluid_of FluidArgs.default in
  eval (JCA_kz [100] 0.99 15000 1.01 87.4e-6 196e-6)
  = Ok (map (fun g => (RtoC (100 * PI * 2)
                       / c_eff fl 0.99 15000 1.01 87.4e-6 196e-6
                           (2 * PI * g))%C) freq,
        map (fun g => (rho_eff fl 0.99 15000 1.01 87.4e-6 (2 * PI * g)
                       * c_eff fl 0.99 15000 1.01 87.4e-6 196e-6
                           (2 * PI * g))%C) freq)
  /\ length freq = 995%nat
  /\ nth_error freq 0 = Some 50.
Proof.
  intros fl. assert (Hphi : 0.99 <> 0) by lra.
  split; [|split; [apply freq_length | now rewrite freq_nth by lia]].
  unfold eval. rewrite (JCA_kz_run _ _ _ _ _ _ _ Hphi).
  cbn [fst map g_freq module_env]. rewrite broadcast_singleton_l.
  reflexivity.
Qed.

(** C3 on the code.  For the one-entry frequency array [[100.0]], [DBM]
    computes the impedance [z0 (1 + 5.5 X^-0.632 - j 8.43 X^-0.632)] at
    100 Hz, and 995 wavenumbers: the Miki factor at 100 Hz times the
    free-field wavenumber of each frequency of the module's grid.  The first
    is [2 pi 50 / c0] times the factor, not [2 pi 100 / c0] times it. *)
Theorem DBM_wavenumber_from_default_grid :
  eval (DBM_z [100] 15000) = Ok [(RtoC z0 * miki_z_factor 15000 100)%C]
  /\ exists k,
      eval (DBM_k [100] 15000) = Ok k
      /\ length k = 995%nat
      /\ nth_error k 0
         = Some (RtoC (2 * PI * 50 / c0) * miki_k_factor 15000 100)%C
      /\ nth_error k 0
         <> Some (RtoC (2 * PI * 100 / c0) * miki_k_factor 15000 100)%C.
Proof.
  split.
  - unfold eval. now rewrite DBM_z_run.
  - exists (map (fun g => (RtoC g * miki_k_factor 15000 100)%C) k0).
    assert (H0 : nth_error
                   (map (fun g => (RtoC g * miki_k_factor 15000 100)%C) k0) 0
                 = Some (RtoC (2 * PI * 50 / c0) * miki_k_factor 15000 100)%C).
    { rewrite nth_error_map, k0_nth by lia. reflexivity. }
    split; [|split; [|split]].
    + unfold eval. rewrite DBM_k_run. cbn [fst map g_k0 module_env].
      now rewrite broadcast_singleton_r.
    + now rewrite length_map, k0_length.
    + exact H0.
    + rewrite H0. intros E. apply Some_eq_inv, Cscale_inj in E.
      * pose proof PI_RGT_0 as Hpi. unfold c0 in E. lra.
      * apply Rgt_not_eq, miki_k_factor_Re.
Qed.

(** * Further properties *)

(** ** Arrays *)

Lemma broadcast_map {A A' B B' D} (op : A' -> B' -> D) (g : A -> A')
      (h : B -> B') a b :
  broadcast op (map g a) (map h b)
  = broadcast (fun x y => op (g x) (h y)) a b.
Proof.
  unfold broadcast. rewrite !length_map.
  destruct (Nat.eqb (length a) (length b)).
  - now rewrite zip_with_map.
  - destruct a as [|x [|x' a]]; destruct b as [|y [|y' b]];
      cbn [map]; rewrite ?map_map; reflexivity.
Qed.

Lemma zip_with_ext {A B D} (op op' : A -> B -> D) a b :
  (forall x y, op x y = op' x y) -> zip_with op a b = zip_with op' a b.
Proof.
  intros H. revert b; induction a as [|x a IH]; intros [|y b]; simpl; auto.
  now rewrite H, IH.
Qed.

Lemma broadcast_ext {A B D} (op op' : A -> B -> D) a b :
  (forall x y, op x y = op' x y) -> broadcast op a b = broadcast op' a b.
Proof.
  intros H. unfold broadcast.
  destruct (Nat.eqb (length a) (length b)).
  - now rewrite (zip_with_ext op op' a b H).
  - destruct a as [|x [|x' a]]; destruct b as [|y [|y' b]]; try reflexivity;
      f_equal; apply map_ext; intros; apply H.
Qed.

Lemma map_zip_with {A B D E} (g : D -> E) (op : A -> B -> D) a b :
  map g (zip_with op a b) = zip_with (fun x y => g (op x y)) a b.
Proof.
  revert b; induction a as [|x a IH]; intros [|y b]; simpl; auto.
  now rewrite IH.
Qed.

Lemma zip_with_app {A B D} (op : A -> B -> D) a1 a2 b1 b2 :
  length a1 = length b1 ->
  zip_with op (a1 ++ a2) (b1 ++ b2) = zip_with op a1 b1 ++ zip_with op a2 b2.
Proof.
  revert b1; induction a1 as [|x a1 IH]; intros [|y b1] H; simpl in *;
    try discriminate; auto.
  now rewrite IH by lia.
Qed.

Lemma zip_with_nth {A B D} (op : A -> B -> D) a b i x y :
  nth_error a i = Some x -> nth_error b i = Some y ->
  nth_error (zip_with op a b) i = Some (op x y).
Proof.
  revert b i; induction a as [|x' a IH]; intros [|y' b] [|i]; simpl;
    try discriminate; auto.
  now intros [= ->] [= ->].
Qed.

Lemma zip_with_Forall {A B D} (op : A -> B -> D) (P : D -> Prop) a b :
  (forall x y, In x a -> In y b -> P (op x y)) -> Forall P (zip_with op a b).
Proof.
  revert b; induction a as [|x a IH]; intros [|y b] H; simpl; auto.
  constructor.
  - apply H; now left.
  - apply IH. intros; apply H; now right.
Qed.

(** ** The conversion on arrays of one length *)

Lemma alpha_from_dkz_zip d k z e :
  length k = length z ->
  alpha_from_dkz d k z e
  = (Ok (zip_with (fun ki zi => rigid_backed_absorption (g_z0 e) d ki zi) k z),
     e).
Proof.
  intros H. rewrite alpha_from_dkz_run.
  rewrite broadcast_same by (now rewrite !length_map).
  cbn [rbind]. rewrite !map_map, zip_with_map, map_zip_with.
  f_equal. f_equal.
  revert z H; induction k as [|ki k IH]; intros [|zi z] H; simpl in *;
    try discriminate; auto.
  rewrite IH by lia. f_equal.
  unfold rigid_backed_absorption. cbv zeta. now rewrite Cmul_opp_l.
Qed.

Lemma broadcast_Ok {A B D} (op : A -> B -> D) a b :
  length a = length b \/ length a = 1%nat \/ length b = 1%nat ->
  exists r, broadcast op a b = Ok r.
Proof.
  intros [H|[H|H]].
  - rewrite broadcast_same by assumption. eauto.
  - destruct a as [|x [|x' a]]; try discriminate.
    rewrite broadcast_singleton_l. eauto.
  - destruct b as [|y [|y' b]]; try discriminate.
    rewrite broadcast_singleton_r. eauto.
Qed.

(** X1.  [alpha_from_dkz] returns exactly when the shapes of [k] and [z]
    broadcast: on equal lengths the output has that length, a one-entry [z]
    is stretched to the length of [k] and a one-entry [k] to the length of
    [z] (two empty arrays give the empty array); any other pair of shapes
    raises [ValueError]. *)
Theorem alpha_from_dkz_shapes (d : R) (k z : list complex) :
  (length k = length z \/ length k = 1%nat \/ length z = 1%nat ->
   exists out,
     eval (alpha_from_dkz d k z) = Ok out
     /\ (length k = length z -> length out = length k)
     /\ (length z = 1%nat -> length out = length k)
     /\ (length k = 1%nat -> length out = length z))
  /\ (length k <> length z -> length k <> 1%nat -> length z <> 1%nat ->
      eval (alpha_from_dkz d k z) = Raise ValueError).
Proof.
  unfold eval. rewrite alpha_from_dkz_run. cbn [fst]. split.
  - intros H.
    destruct (broadcast_Ok Cdiv (map (fun w => (- 1j * w)%C) z)
                (map Ctan (map (fun w => (w * RtoC d)%C) k))) as [zs E].
    { rewrite !length_map. intuition congruence. }
    rewrite E. cbn [rbind]. eexists. split; [reflexivity|].
    rewrite length_map.
    apply broadcast_length_cases in E. rewrite !length_map in E.
    repeat split; intros; lia.
  - intros H1 H2 H3. rewrite broadcast_mismatch; rewrite ?length_map; auto.
Qed.

(** A one-entry impedance against three wavenumbers. *)
Lemma alpha_from_dkz_shapes_witness :
  exists out,
    eval (alpha_from_dkz 1 [RtoC 1; RtoC 2; RtoC 3] [RtoC 1]) = Ok out
    /\ length out = 3%nat.
Proof.
  destruct (proj1 (alpha_from_dkz_shapes 1 [RtoC 1; RtoC 2; RtoC 3]
                     [RtoC 1])) as (out & H & _ & H1 & _).
  - right. right. reflexivity.
  - exists out. split; [exact H|]. apply H1. reflexivity.
Defined.

Lemma Cnorm2_zero a : Cnorm2 a = 0 -> a = RtoC 0.
Proof.
  unfold Cnorm2. intros H. apply complex_eq; simpl; nra.
Qed.

Lemma Cnorm2_nonzero a : a <> RtoC 0 -> Cnorm2 a <> 0.
Proof. intros H E. apply H, Cnorm2_zero, E. Qed.

(** [1 - |R|^2] for [R = (zs - zref) / (zs + zref)], in closed form. *)
Lemma reflection_closed_form (zref : R) (zs : complex) :
  (zs + RtoC zref)%C <> RtoC 0 ->
  1 - Cabs ((zs - RtoC zref) / (zs + RtoC zref))%C ^ 2
  = 4 * zref * Re zs / Cnorm2 (zs + RtoC zref)%C.
Proof.
  intros H. apply Cnorm2_nonzero in H.
  rewrite Cabs_sqr, Cnorm2_div by exact H.
  unfold Cnorm2 in *. simpl in *. field.
  intros E. apply H. etransitivity; [|exact E]. ring.
Qed.

Lemma rigid_backed_absorption_zs zref d k z :
  rigid_backed_absorption zref d k z
  = 1 - Cabs ((surface_impedance d k z - RtoC zref)
              / (surface_impedance d k z + RtoC zref))%C ^ 2.
Proof. reflexivity. Qed.

(** X2.  Where the input impedance [zs = -j z / tan (k d)] is not [-z0],
    the absorption returned by [alpha_from_dkz] is
    [4 z0 Re zs / |zs + z0|^2]. *)
Theorem alpha_from_dkz_closed_form (d : R) (kz : list (complex * complex)) :
  Forall (fun p => (surface_impedance d (fst p) (snd p) + RtoC z0)%C
                   <> RtoC 0) kz ->
  eval (alpha_from_dkz d (map fst kz) (map snd kz))
  = Ok (map (fun p =>
               4 * z0 * Re (surface_impedance d (fst p) (snd p))
               / Cnorm2 (surface_impedance d (fst p) (snd p) + RtoC z0)%C)
          kz).
Proof.
  intros H. unfold eval. rewrite alpha_from_dkz_pairs.
  cbn [fst g_z0 module_env]. f_equal.
  apply map_ext_in. intros p Hp.
  rewrite Forall_forall in H. specialize (H p Hp).
  rewrite rigid_backed_absorption_zs. now apply reflection_closed_form.
Qed.

Lemma z0_pos : 0 < z0.
Proof. unfold z0, rho0, c0. lra. Qed.

Lemma passive_not_opposite zs : 0 <= Re zs -> (zs + RtoC z0)%C <> RtoC 0.
Proof.
  intros H E. apply (f_equal Re) in E. simpl in E.
  pose proof z0_pos. lra.
Qed.


Lemma Ctan_quarter_turn : Ctan (RtoC 1 * RtoC (PI / 4)) = RtoC 1.
Proof.
  replace (RtoC 1 * RtoC (PI / 4))%C with (mkC (PI / 4) 0) by cring.
  rewrite Ctan_real.
  - now rewrite tan_PI4.
  - rewrite cos_PI4. apply Rgt_not_eq.
    apply Rdiv_lt_0_compat; [lra|]. apply sqrt_lt_R0; lra.
Qed.

(** The medium of the example: [k = 1], [z = j], [d = pi / 4], for which
    [zs = 1]. *)
Lemma surface_impedance_example :
  surface_impedance (PI / 4) (RtoC 1) (mkC 0 1) = RtoC 1.
Proof.
  unfold surface_impedance.
  replace (RtoC 1 * RtoC (PI / 4))%C with (mkC (PI / 4) 0) by cring.
  rewrite Ctan_real.
  2:{ rewrite cos_PI4. apply Rgt_not_eq.
      apply Rdiv_lt_0_compat; [lra|]. apply sqrt_lt_R0; lra. }
  rewrite tan_PI4.
  apply complex_eq; unfold Cdiv, Cnorm2, Copp, Cmul, Ci, RtoC; simpl; field.
Qed.

Lemma alpha_from_dkz_closed_form_witness :
  eval (alpha_from_dkz (PI / 4) [RtoC 1] [mkC 0 1])
  = Ok [4 * z0 * Re (surface_impedance (PI / 4) (RtoC 1) (mkC 0 1))
        / Cnorm2 (surface_impedance (PI / 4) (RtoC 1) (mkC 0 1)
                  + RtoC z0)%C].
Proof.
  apply (alpha_from_dkz_closed_form (PI / 4) [(RtoC 1, mkC 0 1)]).
  constructor; [|constructor]. cbn [fst snd].
  apply passive_not_opposite. rewrite surface_impedance_example. simpl. lra.
Defined.

(** X3.  Passivity, in exact arithmetic: where [tan (k d)] is not zero, so
    that the division of line 12 is a division of numbers, and the input
    impedance has a non-negative real part, every absorption returned lies
    between 0 and 1. *)
Theorem alpha_from_dkz_passive (d : R) (kz : list (complex * complex)) :
  Forall (fun p => Ctan (fst p * RtoC d) <> RtoC 0
                   /\ 0 <= Re (surface_impedance d (fst p) (snd p))) kz ->
  exists out,
    eval (alpha_from_dkz d (map fst kz) (map snd kz)) = Ok out
    /\ Forall (fun a => 0 <= a <= 1) out.
Proof.
  intros H. unfold eval. rewrite alpha_from_dkz_pairs.
  cbn [fst g_z0 module_env]. eexists. split; [reflexivity|].
  apply Forall_forall. intros a Ha. apply in_map_iff in Ha as (p & <- & Hp).
  rewrite Forall_forall in H. destruct (H p Hp) as [_ Hre].
  split.
  - rewrite rigid_backed_absorption_zs, reflection_closed_form
      by now apply passive_not_opposite.
    pose proof z0_pos.
    assert (0 < Cnorm2 (surface_impedance d (fst p) (snd p) + RtoC z0)%C).
    { pose proof (Cnorm2_nonneg
                    (surface_impedance d (fst p) (snd p) + RtoC z0)%C).
      pose proof (Cnorm2_nonzero _ (passive_not_opposite _ Hre)). lra. }
    apply Rmult_le_pos; [nra|]. left. now apply Rinv_0_lt_compat.
  - unfold rigid_backed_absorption. cbv zeta. rewrite Cabs_sqr.
    pose proof (Cnorm2_nonneg
      ((- (1j * snd p) / Ctan (fst p * RtoC d) - RtoC z0)
       / (- (1j * snd p) / Ctan (fst p * RtoC d) + RtoC z0))%C). lra.
Qed.

Lemma alpha_from_dkz_passive_witness :
  exists out,
    eval (alpha_from_dkz (PI / 4) [RtoC 1] [mkC 0 1]) = Ok out
    /\ Forall (fun a => 0 <= a <= 1) out.
Proof.
  apply (alpha_from_dkz_passive (PI / 4) [(RtoC 1, mkC 0 1)]).
  constructor; [|constructor]. cbn [fst snd]. split.
  - rewrite Ctan_quarter_turn. intros E.
    apply (f_equal Re) in E. simpl in E. lra.
  - rewrite surface_impedance_example. simpl. lra.
Defined.

(** X4.  Impedance matching: where the input impedance is not [-z0], an
    entry returned by [alpha_from_dkz] is 1 exactly when the input impedance
    of that entry is [z0]. *)
Theorem alpha_from_dkz_perfect_absorption
        (d : R) (kz : list (complex * complex)) (out : list R)
        (i : nat) (k z : complex) (a : R) :
  eval (alpha_from_dkz d (map fst kz) (map snd kz)) = Ok out ->
  nth_error kz i = Some (k, z) ->
  nth_error out i = Some a ->
  (surface_impedance d k z + RtoC z0)%C <> RtoC 0 ->
  (a = 1 <-> surface_impedance d k z = RtoC z0).
Proof.
  unfold eval. rewrite alpha_from_dkz_pairs. cbn [fst g_z0 module_env].
  intros [= <-] Hkz Ha Hne.
  rewrite nth_error_map, Hkz in Ha. cbn in Ha. injection Ha as <-.
  rewrite rigid_backed_absorption_zs, Cabs_sqr.
  rewrite Cnorm2_div by now apply Cnorm2_nonzero.
  pose proof (Cnorm2_nonzero _ Hne) as Hden.
  pose proof (Cnorm2_nonneg (surface_impedance d k z + RtoC z0)%C) as Hpos.
  split.
  - intros H.
    assert (Hnum : Cnorm2 (surface_impedance d k z - RtoC z0)%C = 0).
    { assert (E : Cnorm2 (surface_impedance d k z - RtoC z0)%C
                  / Cnorm2 (surface_impedance d k z + RtoC z0)%C = 0) by lra.
      unfold Rdiv in E. apply Rmult_integral in E as [E|E]; [exact E|].
      exfalso. revert E. apply Rinv_neq_0_compat, Hden. }
    apply Cnorm2_zero in Hnum.
    apply complex_eq.
    + apply (f_equal Re) in Hnum. simpl in *. lra.
    + apply (f_equal Im) in Hnum. simpl in *. lra.
  - intros ->.
    replace (RtoC z0 - RtoC z0)%C with (RtoC 0) by cring.
    unfold Cnorm2 at 1. simpl. lra.
Qed.

(** A medium with [zs = z0]: [k = 1], [z = j z0], [d = pi / 4]. *)
Lemma surface_impedance_matched :
  surface_impedance (PI / 4) (RtoC 1) (mkC 0 z0) = RtoC z0.
Proof.
  unfold surface_impedance.
  replace (RtoC 1 * RtoC (PI / 4))%C with (mkC (PI / 4) 0) by cring.
  rewrite Ctan_real.
  2:{ rewrite cos_PI4. apply Rgt_not_eq.
      apply Rdiv_lt_0_compat; [lra|]. apply sqrt_lt_R0; lra. }
  rewrite tan_PI4.
  apply complex_eq; unfold Cdiv, Cnorm2, Copp, Cmul, Ci, RtoC; simpl; field.
Qed.

Lemma alpha_from_dkz_perfect_absorption_witness :
  rigid_backed_absorption z0 (PI / 4) (RtoC 1) (mkC 0 z0) = 1.
Proof.
  apply (alpha_from_dkz_perfect_absorption (PI / 4) [(RtoC 1, mkC 0 z0)]
           [rigid_backed_absorption z0 (PI / 4) (RtoC 1) (mkC 0 z0)]
           0 (RtoC 1) (mkC 0 z0)).
  - unfold eval. now rewrite alpha_from_dkz_pairs.
  - reflexivity.
  - reflexivity.
  - apply passive_not_opposite. rewrite surface_impedance_matched.
    simpl. pose proof z0_pos. lra.
  - apply surface_impedance_matched.
Defined.

Lemma cosh_opp x : cosh (- x) = cosh x.
Proof. unfold cosh. rewrite Ropp_involutive. lra. Qed.

Lemma sinh_opp x : sinh (- x) = - sinh x.
Proof. unfold sinh. rewrite Ropp_involutive. lra. Qed.

Lemma Cdiv_opp_opp a b : ((- a) / (- b))%C = (a / b)%C.
Proof.
  unfold Cdiv, Copp, Cnorm2. simpl.
  replace (- Re b * - Re b + - Im b * - Im b)
    with (Re b * Re b + Im b * Im b) by ring.
  apply complex_eq; simpl; f_equal; ring.
Qed.

Lemma Cdiv_opp_l a b : ((- a) / b)%C = (- (a / b))%C.
Proof.
  unfold Cdiv, Copp. apply complex_eq; simpl; unfold Rdiv; ring.
Qed.

(** The tangent is odd. *)
Lemma Ctan_opp w : Ctan (- w) = (- Ctan w)%C.
Proof.
  unfold Ctan.
  assert (Hs : Csin (- w) = (- Csin w)%C).
  { unfold Csin, Copp. simpl.
    rewrite sin_neg, cos_neg, cosh_opp, sinh_opp.
    apply complex_eq; simpl; ring. }
  assert (Hc : Ccos (- w) = Ccos w).
  { unfold Ccos, Copp. simpl.
    rewrite sin_neg, cos_neg, cosh_opp, sinh_opp.
    apply complex_eq; simpl; ring. }
  rewrite Hs, Hc. apply Cdiv_opp_l.
Qed.

(** X5.  Changing the sign of both the wavenumber and the impedance does not
    change the outcome of [alpha_from_dkz]: the root taken for the sound
    speed, [c] or [-c], from which [k = omega / c] and [z = rho c] are
    derived, has no effect on the absorption. *)
Theorem alpha_from_dkz_sign_invariant (d : R) (k z : list complex) :
  eval (alpha_from_dkz d (map Copp k) (map Copp z))
  = eval (alpha_from_dkz d k z).
Proof.
  unfold eval. rewrite !alpha_from_dkz_run. cbn [fst].
  f_equal. rewrite !map_map, !broadcast_map.
  apply broadcast_ext. intros zi ki.
  replace (- ki * RtoC d)%C with (- (ki * RtoC d))%C by cring.
  rewrite Ctan_opp.
  replace (- 1j * - zi)%C with (- (- 1j * zi))%C by cring.
  apply Cdiv_opp_opp.
Qed.

(** X6.  The frequencies are independent in [alpha_from_dkz]: on arrays of
    matching lengths, the conversion of two concatenated batches is the
    concatenation of the two conversions. *)
Theorem alpha_from_dkz_app (d : R) (k1 k2 z1 z2 : list complex)
        (out1 out2 : list R) :
  length k1 = length z1 -> length k2 = length z2 ->
  eval (alpha_from_dkz d k1 z1) = Ok out1 ->
  eval (alpha_from_dkz d k2 z2) = Ok out2 ->
  eval (alpha_from_dkz d (k1 ++ k2) (z1 ++ z2)) = Ok (out1 ++ out2).
Proof.
  intros H1 H2. unfold eval.
  rewrite !alpha_from_dkz_zip by (rewrite ?length_app; congruence).
  cbn [fst]. intros [= <-] [= <-].
  now rewrite zip_with_app.
Qed.

Lemma alpha_from_dkz_app_witness :
  eval (alpha_from_dkz 1 ([RtoC 1] ++ [RtoC 2]) ([RtoC 3] ++ [RtoC 4]))
  = Ok ([rigid_backed_absorption z0 1 (RtoC 1) (RtoC 3)]
        ++ [rigid_backed_absorption z0 1 (RtoC 2) (RtoC 4)]).
Proof.
  apply alpha_from_dkz_app; try reflexivity;
    unfold eval; now rewrite alpha_from_dkz_zip.
Defined.

(** ** The fluid *)

(** The constructor either finds a divisor that is zero and raises, or builds
    the fluid. *)
Lemma Fluid_init_cases (a : FluidArgs.t) :
  let TK := FluidArgs.T0 a + 273.15 in
  ((FluidArgs.R_ a * TK <> 0 /\ TK + FluidArgs.C a <> 0
    /\ FluidArgs.Tref a <> 0 /\ kappa_fit TK <> 0)
   /\ Fluid.init a = Ok (fluid_of a))
  \/ ((FluidArgs.R_ a * TK = 0 \/ TK + FluidArgs.C a = 0
       \/ FluidArgs.Tref a = 0 \/ kappa_fit TK = 0)
      /\ Fluid.init a = Raise ZeroDivisionError).
Proof.
  intros TK.
  destruct (Req_dec_T (FluidArgs.R_ a * TK) 0) as [E1|N1].
  { right. split; [auto|]. now apply Fluid_init_zero_density_divisor. }
  destruct (Req_dec_T (TK + FluidArgs.C a) 0) as [E2|N2].
  { right. split; [auto|].
    unfold Fluid.init. cbv zeta. rewrite (py_div_nonzero _ _ N1).
    cbn [rbind]. now rewrite (py_div_zero _ _ E2). }
  destruct (Req_dec_T (FluidArgs.Tref a) 0) as [E3|N3].
  { right. split; [auto|].
    unfold Fluid.init. cbv zeta. rewrite (py_div_nonzero _ _ N1).
    cbn [rbind]. rewrite (py_div_nonzero _ _ N2). cbn [rbind].
    now rewrite (py_div_zero _ _ E3). }
  destruct (Req_dec_T (kappa_fit TK) 0) as [E4|N4].
  { right. split; [auto|].
    unfold Fluid.init. cbv zeta. rewrite (py_div_nonzero _ _ N1).
    cbn [rbind]. rewrite (py_div_nonzero _ _ N2). cbn [rbind].
    rewrite (py_div_nonzero _ _ N3). cbn [rbind].
    fold TK. fold (kappa_fit TK).
    now rewrite (py_div_zero _ _ E4). }
  left. split; [auto|]. now apply Fluid_init_Ok.
Qed.

Lemma Cp_fit_pos T0 : -50 <= T0 <= 100 -> 990 <= Cp_fit T0 <= 1030.
Proof.
  intros [Hlo Hhi]. unfold Cp_fit.
  assert (H2 : 0 <= T0 ^ 2 <= 10000) by nra.
  assert (H3 : -125000 <= T0 ^ 3 <= 1000000).
  { split.
    - replace (T0 ^ 3) with (T0 * T0 ^ 2) by ring.
      destruct (Rle_dec 0 T0); nra.
    - replace (T0 ^ 3) with (T0 * T0 ^ 2) by ring.
      destruct (Rle_dec 0 T0); nra. }
  lra.
Qed.

Lemma kappa_fit_pos TK : 223.15 <= TK <= 373.15 -> 0.018 <= kappa_fit TK.
Proof.
  intros [Hlo Hhi]. unfold kappa_fit.
  assert (H3 : 0 <= TK ^ 3) by (apply pow_le; lra).
  assert (H1 : 223.15 * (1.0184e-4 - 4.8574e-8 * 373.15)
               <= TK * (1.0184e-4 - 4.8574e-8 * TK)) by nra.
  replace (1.5207e-11 * TK ^ 3 - 4.8574e-8 * TK ^ 2 + 1.0184e-4 * TK
           - 3.9333e-4)
    with (1.5207e-11 * TK ^ 3 + TK * (1.0184e-4 - 4.8574e-8 * TK)
          - 3.9333e-4) by ring.
  lra.
Qed.

(** The properties of a fluid built from physical arguments are positive. *)
Lemma fluid_of_physical (a : FluidArgs.t) :
  -50 <= FluidArgs.T0 a <= 100 ->
  0 < FluidArgs.P0 a -> 0 < FluidArgs.R_ a -> 0 < FluidArgs.adia a ->
  0 < FluidArgs.Tref a -> 0 <= FluidArgs.C a -> 0 < FluidArgs.Eta0 a ->
  Fluid.init a = Ok (fluid_of a)
  /\ 0 < Fluid.TK (fluid_of a) /\ 0 < Fluid.rho (fluid_of a)
  /\ 0 < Fluid.Eta (fluid_of a) /\ 0 < Fluid.Cp (fluid_of a)
  /\ 0 < Fluid.kappa (fluid_of a) /\ 0 < Fluid.co (fluid_of a)
  /\ 0 < Fluid.Pr (fluid_of a).
Proof.
  intros HT HP HR Ha HTr HC HE.
  set (TK := FluidArgs.T0 a + 273.15).
  assert (HTK : 223.15 <= TK <= 373.15) by (unfold TK; lra).
  pose proof (kappa_fit_pos TK HTK) as Hk.
  pose proof (Cp_fit_pos _ HT) as HCp.
  assert (HRT : 0 < FluidArgs.R_ a * TK) by (apply Rmult_lt_0_compat; lra).
  split.
  { apply Fluid_init_Ok; fold TK; lra. }
  assert (Hrho : 0 < FluidArgs.P0 a / (FluidArgs.R_ a * TK))
    by now apply Rdiv_lt_0_compat.
  assert (HEta : 0 < FluidArgs.Eta0 a
                     * ((FluidArgs.Tref a + FluidArgs.C a)
                        / (TK + FluidArgs.C a))
                     * Rpower (TK / FluidArgs.Tref a) (3 / 2)).
  { apply Rmult_lt_0_compat; [apply Rmult_lt_0_compat; [exact HE|]|].
    - apply Rdiv_lt_0_compat; lra.
    - apply exp_pos. }
  unfold fluid_of; cbn [Fluid.TK Fluid.rho Fluid.Eta Fluid.co Fluid.Pr
                        Fluid.Cp Fluid.kappa]; fold TK.
  repeat split; try lra; try assumption.
  - apply sqrt_lt_R0. apply Rmult_lt_0_compat; assumption.
  - apply Rdiv_lt_0_compat; [|lra]. apply Rmult_lt_0_compat; [lra|exact HEta].
Qed.

(** X8.  For a temperature between -50 and 100 degrees Celsius and positive
    pressure, gas constant, adiabatic index, reference temperature and
    reference viscosity, with a non-negative Sutherland constant, the
    constructor does not raise and every property it computes is positive. *)
Theorem Fluid_init_physical (a : FluidArgs.t) :
  -50 <= FluidArgs.T0 a <= 100 ->
  0 < FluidArgs.P0 a -> 0 < FluidArgs.R_ a -> 0 < FluidArgs.adia a ->
  0 < FluidArgs.Tref a -> 0 <= FluidArgs.C a -> 0 < FluidArgs.Eta0 a ->
  exists fl,
    Fluid.init a = Ok fl
    /\ 0 < Fluid.TK fl /\ 0 < Fluid.rho fl /\ 0 < Fluid.Eta fl
    /\ 0 < Fluid.Cp fl /\ 0 < Fluid.kappa fl /\ 0 < Fluid.co fl
    /\ 0 < Fluid.Pr fl.
Proof.
  intros HT HP HR Ha HTr HC HE. exists (fluid_of a).
  now apply fluid_of_physical.
Qed.

(** The default fluid. *)
Lemma default_fluid_physical :
  let fl := fluid_of FluidArgs.default in
  0 < Fluid.rho fl /\ 0 < Fluid.Eta fl /\ Fluid.Pr fl <> 0
  /\ 1 <= Fluid.gamma fl /\ 0 < Fluid.P0 fl.
Proof.
  intros fl.
  destruct (fluid_of_physical FluidArgs.default)
    as (_ & _ & Hr & He & _ & _ & _ & HPr);
    cbn [FluidArgs.default FluidArgs.R_ FluidArgs.T0 FluidArgs.C
         FluidArgs.Tref FluidArgs.P0 FluidArgs.adia FluidArgs.Eta0];
    try lra.
  fold fl in Hr, He, HPr. repeat split; try assumption; try lra.
  - unfold fl, fluid_of. cbn [Fluid.gamma FluidArgs.default FluidArgs.adia].
    lra.
  - unfold fl, fluid_of. cbn [Fluid.P0 FluidArgs.default FluidArgs.P0]. lra.
Qed.

Lemma Fluid_init_physical_witness :
  exists fl, Fluid.init FluidArgs.default = Ok fl /\ 0 < Fluid.rho fl.
Proof.
  destruct (Fluid_init_physical FluidArgs.default) as (fl & H & _ & Hr & _);
    cbn [FluidArgs.default FluidArgs.R_ FluidArgs.T0 FluidArgs.C
         FluidArgs.Tref FluidArgs.P0 FluidArgs.adia FluidArgs.Eta0];
    try lra.
  exists fl. split; assumption.
Defined.

(** X9.  For every fluid the constructor builds with a non-negative
    [gamma * R * TK], density and sound speed agree with the adiabatic bulk
    modulus: [rho * c^2 = gamma * P0]; the three names of the sound speed
    and the two of the density hold one value. *)
Theorem Fluid_bulk_modulus (a : FluidArgs.t) (fl : Fluid.t) :
  Fluid.init a = Ok fl ->
  0 <= FluidArgs.adia a * (FluidArgs.R_ a * (FluidArgs.T0 a + 273.15)) ->
  Fluid.rho fl * Fluid.c fl ^ 2 = Fluid.gamma fl * Fluid.P0 fl
  /\ Fluid.speedOfSound fl = Fluid.c fl /\ Fluid.co fl = Fluid.c fl
  /\ Fluid.density fl = Fluid.rho fl.
Proof.
  intros Hfl Hpos.
  assert (HRT : FluidArgs.R_ a * (FluidArgs.T0 a + 273.15) <> 0).
  { intros E. rewrite (Fluid_init_zero_density_divisor a E) in Hfl.
    discriminate. }
  apply Fluid_init_inv in Hfl as [-> _].
  unfold fluid_of; cbn [Fluid.rho Fluid.c Fluid.gamma Fluid.P0
                        Fluid.speedOfSound Fluid.co Fluid.density].
  repeat split.
  rewrite pow2_sqrt by exact Hpos. field.
  split; intros E; apply HRT; rewrite E; ring.
Qed.

Lemma Fluid_bulk_modulus_witness :
  Fluid.rho (fluid_of FluidArgs.default)
  * Fluid.c (fluid_of FluidArgs.default) ^ 2
  = Fluid.gamma (fluid_of FluidArgs.default)
    * Fluid.P0 (fluid_of FluidArgs.default).
Proof.
  apply (Fluid_bulk_modulus FluidArgs.default (fluid_of FluidArgs.default)).
  - apply Fluid_init_default.
  - cbn [FluidArgs.default FluidArgs.R_ FluidArgs.T0 FluidArgs.adia]. lra.
Defined.

(** ** The effective medium *)

Lemma rho_c_JCA_phi_zero freq sigma alpha v_length t_length args fl :
  Fluid.init args = Ok fl ->
  rho_c_JCA freq 0 sigma alpha v_length t_length args
  = Raise ZeroDivisionError.
Proof.
  intros Hfl. unfold rho_c_JCA. rewrite Hfl. cbn [rbind].
  apply Fluid_init_inv in Hfl as [_ Hk].
  rewrite (py_div_nonzero _ _ Hk). cbn [rbind].
  now rewrite (py_div_zero _ 0) by reflexivity.
Qed.

Lemma rho_c_JCA_no_fluid freq phi sigma alpha v_length t_length args x :
  Fluid.init args = Raise x ->
  rho_c_JCA freq phi sigma alpha v_length t_length args = Raise x.
Proof. intros H. unfold rho_c_JCA. now rewrite H. Qed.

Lemma rho_c_JCA_Ok_inv freq phi sigma alpha v_length t_length args r :
  rho_c_JCA freq phi sigma alpha v_length t_length args = Ok r ->
  phi <> 0 /\ exists fl, Fluid.init args = Ok fl.
Proof.
  intros H.
  destruct (Fluid_init_cases args) as [[_ Hfl]|[_ Hfl]].
  - split; [|eauto]. intros ->.
    rewrite (rho_c_JCA_phi_zero _ _ _ _ _ _ _ Hfl) in H. discriminate.
  - rewrite (rho_c_JCA_no_fluid _ _ _ _ _ _ _ _ Hfl) in H. discriminate.
Qed.

(** X10.  [rho_c_JCA] keeps the shape of its frequency array: whatever the
    length of the array, the empty array included, it raises no shape error,
    and whenever it returns, the density array and the sound-speed array have
    the length of the frequency array. *)
Theorem rho_c_JCA_shapes (freq : list R)
        (phi sigma alpha v_length t_length : R) (args : FluidArgs.t) :
  rho_c_JCA freq phi sigma alpha v_length t_length args <> Raise ValueError
  /\ (forall rho c,
        rho_c_JCA freq phi sigma alpha v_length t_length args = Ok (rho, c) ->
        length rho = length freq /\ length c = length freq).
Proof.
  destruct (Fluid_init_cases args) as [[_ Hfl]|[_ Hfl]].
  - destruct (Req_dec_T phi 0) as [->|Hphi].
    + rewrite (rho_c_JCA_phi_zero _ _ _ _ _ _ _ Hfl).
      split; [discriminate|]. discriminate.
    + rewrite (rho_c_JCA_entries _ _ _ _ _ _ _ _ Hfl Hphi).
      split; [discriminate|].
      intros rho c [= <- <-]. now rewrite !length_map.
  - rewrite (rho_c_JCA_no_fluid _ _ _ _ _ _ _ _ Hfl).
    split; [discriminate|]. discriminate.
Qed.

Lemma rho_c_JCA_shapes_witness :
  exists rho c,
    rho_c_JCA [100; 200] 0.99 15000 1.01 87.4e-6 196e-6 FluidArgs.default
    = Ok (rho, c)
    /\ length rho = 2%nat /\ length c = 2%nat.
Proof.
  destruct (rho_c_JCA [100; 200] 0.99 15000 1.01 87.4e-6 196e-6
                      FluidArgs.default) as [[rho c]|x] eqn:E.
  - exists rho, c. split; [reflexivity|].
    exact (proj2 (rho_c_JCA_shapes [100; 200] 0.99 15000 1.01 87.4e-6 196e-6
                                   FluidArgs.default) rho c E).
  - exfalso.
    rewrite (rho_c_JCA_entries _ _ _ _ _ _ _ _ Fluid_init_default) in E;
      [discriminate | lra].
Defined.

(** X11.  The frequencies are independent in [rho_c_JCA]: the result for two
    concatenated frequency arrays is the concatenation of the two results. *)
Theorem rho_c_JCA_app (f1 f2 : list R)
        (phi sigma alpha v_length t_length : R) (args : FluidArgs.t)
        (rho1 c1 rho2 c2 : list complex) :
  rho_c_JCA f1 phi sigma alpha v_length t_length args = Ok (rho1, c1) ->
  rho_c_JCA f2 phi sigma alpha v_length t_length args = Ok (rho2, c2) ->
  rho_c_JCA (f1 ++ f2) phi sigma alpha v_length t_length args
  = Ok (rho1 ++ rho2, c1 ++ c2).
Proof.
  intros H1 H2.
  destruct (rho_c_JCA_Ok_inv _ _ _ _ _ _ _ _ H1) as (Hphi & [fl Hfl]).
  rewrite (rho_c_JCA_entries f1 _ _ _ _ _ _ _ Hfl Hphi) in H1.
  rewrite (rho_c_JCA_entries f2 _ _ _ _ _ _ _ Hfl Hphi) in H2.
  rewrite (rho_c_JCA_entries (f1 ++ f2) _ _ _ _ _ _ _ Hfl Hphi).
  injection H1 as <- <-. injection H2 as <- <-.
  now rewrite !map_app.
Qed.

(** Two frequencies, one at a time and together. *)
Lemma rho_c_JCA_app_witness :
  let fl := fluid_of FluidArgs.default in
  rho_c_JCA ([100] ++ [200]) 0.99 15000 1.01 87.4e-6 196e-6 FluidArgs.default
  = Ok ([rho_eff fl 0.99 15000 1.01 87.4e-6 (2 * PI * 100)]
        ++ [rho_eff fl 0.99 15000 1.01 87.4e-6 (2 * PI * 200)],
        [c_eff fl 0.99 15000 1.01 87.4e-6 196e-6 (2 * PI * 100)]
        ++ [c_eff fl 0.99 15000 1.01 87.4e-6 196e-6 (2 * PI * 200)]).
Proof.
  assert (Hphi : 0.99 <> 0) by lra.
  apply rho_c_JCA_app;
    now rewrite (rho_c_JCA_entries _ _ _ _ _ _ _ _ Fluid_init_default Hphi).
Defined.

(** X12.  The effective density does not depend on the thermal length: for
    two thermal lengths [rho_c_JCA] returns the same density array. *)
Theorem rho_c_JCA_density_ignores_thermal_length (freq : list R)
        (phi sigma alpha v_length t1 t2 : R) (args : FluidArgs.t)
        (rho c : list complex) :
  rho_c_JCA freq phi sigma alpha v_length t1 args = Ok (rho, c) ->
  exists c', rho_c_JCA freq phi sigma alpha v_length t2 args = Ok (rho, c').
Proof.
  intros H.
  destruct (rho_c_JCA_Ok_inv _ _ _ _ _ _ _ _ H) as (Hphi & [fl Hfl]).
  rewrite (rho_c_JCA_entries freq _ _ _ _ t1 _ _ Hfl Hphi) in H.
  rewrite (rho_c_JCA_entries freq _ _ _ _ t2 _ _ Hfl Hphi).
  injection H as <- _. eauto.
Qed.

Lemma rho_c_JCA_density_ignores_thermal_length_witness :
  exists c',
    rho_c_JCA [100] 0.99 15000 1.01 87.4e-6 1 FluidArgs.default
    = Ok ([rho_eff (fluid_of FluidArgs.default) 0.99 15000 1.01 87.4e-6
             (2 * PI * 100)], c').
Proof.
  assert (Hphi : 0.99 <> 0) by lra.
  apply (rho_c_JCA_density_ignores_thermal_length [100] 0.99 15000 1.01
           87.4e-6 196e-6 1 FluidArgs.default _
           [c_eff (fluid_of FluidArgs.default) 0.99 15000 1.01 87.4e-6
              196e-6 (2 * PI * 100)]).
  now rewrite (rho_c_JCA_entries _ _ _ _ _ _ _ _ Fluid_init_default Hphi).
Defined.

(** ** The empirical model *)

Lemma freq_In x : In x freq -> 50 <= x <= 9990.
Proof.
  intros H. apply In_nth_error in H as [i Hi].
  assert (Hlt : (i < 995)%nat).
  { rewrite <- freq_length. apply nth_error_Some. congruence. }
  rewrite (freq_nth i Hlt) in Hi. apply Some_eq_inv in Hi. subst x.
  split; apply IZR_le; lia.
Qed.

Lemma k0_In g : In g k0 -> 0 < g.
Proof.
  rewrite k0_as_map. intros H. apply in_map_iff in H as (x & <- & Hx).
  apply freq_In in Hx. pose proof PI_RGT_0. unfold c0.
  apply Rdiv_lt_0_compat; [|lra]. apply Rmult_lt_0_compat; lra.
Qed.

Lemma miki_z_factor_parts sigma f :
  Re (miki_z_factor sigma f) = 1 + 5.5 * Rpower (miki_X sigma f) (-0.632)
  /\ Im (miki_z_factor sigma f) = - (8.43 * Rpower (miki_X sigma f) (-0.632)).
Proof. unfold miki_z_factor. cbn. split; ring. Qed.

Lemma miki_k_factor_parts sigma f :
  Re (miki_k_factor sigma f) = 1 + 7.81 * Rpower (miki_X sigma f) (-0.618)
  /\ Im (miki_k_factor sigma f) = - (11.41 * Rpower (miki_X sigma f) (-0.618)).
Proof. unfold miki_k_factor. cbn. split; ring. Qed.

Lemma Rpower_pos x y : 0 < Rpower x y.
Proof. apply exp_pos. Qed.

(** X13.  For positive frequencies and a positive flow resistivity the
    impedance computed by [DBM] has, at every frequency, a real part above
    [z0] and a negative imaginary part. *)
Theorem DBM_z_passive (f : list R) (sigma : R) :
  Forall (fun x => 0 < x) f -> 0 < sigma ->
  exists z,
    eval (DBM_z f sigma) = Ok z
    /\ length z = length f
    /\ Forall (fun w => z0 < Re w /\ Im w < 0) z.
Proof.
  intros _ _. unfold eval. rewrite DBM_z_run. cbn [fst g_z0 module_env].
  eexists. split; [reflexivity|]. split; [apply length_map|].
  apply Forall_forall. intros w Hw. apply in_map_iff in Hw as (x & <- & _).
  destruct (miki_z_factor_parts sigma x) as [Hre Him].
  pose proof (Rpower_pos (miki_X sigma x) (-0.632)) as Hp.
  pose proof z0_pos as Hz.
  cbn [Re Im RtoC Cmul]. rewrite Hre, Him. split; nra.
Qed.

Lemma DBM_z_passive_witness :
  exists z,
    eval (DBM_z [100] 15000) = Ok z
    /\ Forall (fun w => z0 < Re w /\ Im w < 0) z.
Proof.
  destruct (DBM_z_passive [100] 15000) as (z & H & _ & Hz).
  - constructor; [lra|constructor].
  - lra.
  - exists z. split; assumption.
Defined.

(** X14.  On a frequency array of the grid's length, with positive
    frequencies and a positive flow resistivity, every wavenumber computed
    by [DBM] has a positive real part and a negative imaginary part: a wave
    that decays as it travels. *)
Theorem DBM_k_decaying (f : list R) (sigma : R) :
  length f = length freq ->
  Forall (fun x => 0 < x) f -> 0 < sigma ->
  exists k,
    eval (DBM_k f sigma) = Ok k
    /\ length k = length f
    /\ Forall (fun w => 0 < Re w /\ Im w < 0) k.
Proof.
  intros Hlen _ _. unfold eval. rewrite DBM_k_run.
  cbn [fst g_k0 module_env].
  rewrite broadcast_same
    by (now rewrite length_map, k0_length, Hlen, freq_length).
  eexists. split; [reflexivity|]. split.
  - rewrite zip_with_length; rewrite ?length_map, ?k0_length, ?Hlen,
      ?freq_length; reflexivity.
  - apply zip_with_Forall. intros g w Hg Hw.
    apply in_map_iff in Hw as (x & <- & _).
    apply k0_In in Hg.
    destruct (miki_k_factor_parts sigma x) as [Hre Him].
    pose proof (Rpower_pos (miki_X sigma x) (-0.618)) as Hp.
    cbn [Re Im RtoC Cmul]. rewrite Hre, Him. split; nra.
Qed.

Lemma DBM_k_decaying_witness :
  exists k,
    eval (DBM_k freq 15000) = Ok k
    /\ Forall (fun w => 0 < Re w /\ Im w < 0) k.
Proof.
  destruct (DBM_k_decaying freq 15000) as (k & H & _ & Hk).
  - reflexivity.
  - apply Forall_forall. intros x Hx. apply freq_In in Hx. lra.
  - lra.
  - exists k. split; assumption.
Defined.

(** X15.  The impedance computed by [DBM] depends on the frequencies and the
    flow resistivity through their ratio only: scaling both by one factor
    that is not zero leaves it unchanged. *)
Theorem DBM_z_scaling (f : list R) (sigma lambda : R) :
  lambda <> 0 -> sigma <> 0 ->
  eval (DBM_z (map (fun x => lambda * x) f) (lambda * sigma))
  = eval (DBM_z f sigma).
Proof.
  intros Hl Hs. unfold eval. rewrite !DBM_z_run. cbn [fst].
  f_equal. rewrite map_map. apply map_ext. intros x.
  unfold miki_z_factor, miki_X.
  replace (1000 * (lambda * x) / (lambda * sigma)) with (1000 * x / sigma)
    by (field; split; assumption).
  reflexivity.
Qed.

Lemma DBM_z_scaling_witness :
  eval (DBM_z (map (fun x => 2 * x) [100]) (2 * 15000))
  = eval (DBM_z [100] 15000).
Proof. apply DBM_z_scaling; lra. Defined.

(** ** The entry points on every shape of input *)

Lemma zip_with_zip_with_map {A B D E F} (op2 : D -> E -> F)
      (op1 : A -> B -> D) (h : B -> E) a b :
  zip_with op2 (zip_with op1 a b) (map h b)
  = zip_with (fun x y => op2 (op1 x y) (h y)) a b.
Proof.
  revert b; induction a as [|x a IH]; intros [|y b]; simpl; auto.
  now rewrite IH.
Qed.

Lemma zip_with_flip {A B D} (op : A -> B -> D) a b :
  zip_with op a b = zip_with (fun y x => op x y) b a.
Proof.
  revert b; induction a as [|x a IH]; intros [|y b]; simpl; auto.
  now rewrite IH.
Qed.

(** The conversion when one impedance meets an array of wavenumbers. *)
Lemma alpha_from_dkz_stretch d (k : list complex) (z : complex) e :
  alpha_from_dkz d k [z] e
  = (Ok (map (fun ki => rigid_backed_absorption (g_z0 e) d ki z) k), e).
Proof.
  rewrite alpha_from_dkz_run. cbn [map].
  rewrite broadcast_singleton_l. cbn [rbind]. rewrite !map_map.
  f_equal. f_equal. apply map_ext. intros ki.
  unfold rigid_backed_absorption. cbv zeta. now rewrite Cmul_opp_l.
Qed.

(** X16.  What [DBM] does on every frequency array.  On an array of the
    grid's length the entry [i] is the absorption for the power laws of the
    input frequency [i] and the free-field wavenumber of the grid frequency
    [i]; a one-entry array is stretched over the grid; every other length,
    the empty array included, raises [ValueError]. *)
Theorem DBM_on_every_shape (f : list R) (d sigma : R) :
  (length f = length freq ->
   eval (DBM f d sigma)
   = Ok (zip_with
           (fun g x =>
              rigid_backed_absorption z0 d
                (RtoC (2 * PI * g / c0) * miki_k_factor sigma x)%C
                (RtoC z0 * miki_z_factor sigma x)%C) freq f))
  /\ (forall x, f = [x] ->
      eval (DBM f d sigma)
      = Ok (map
              (fun g =>
                 rigid_backed_absorption z0 d
                   (RtoC (2 * PI * g / c0) * miki_k_factor sigma x)%C
                   (RtoC z0 * miki_z_factor sigma x)%C) freq))
  /\ (length f <> length freq -> length f <> 1%nat ->
      eval (DBM f d sigma) = Raise ValueError).
Proof.
  rewrite freq_length. split; [|split].
  - intros Hf. unfold eval, DBM, bind.
    rewrite DBM_z_run, DBM_k_run. cbn [g_k0 g_z0 module_env].
    rewrite k0_as_map.
    rewrite broadcast_same by (now rewrite !length_map, freq_length).
    rewrite zip_with_map.
    rewrite alpha_from_dkz_zip
      by (rewrite zip_with_length, length_map; rewrite ?freq_length; auto).
    cbn [fst g_z0 module_env]. f_equal.
    now rewrite zip_with_zip_with_map.
  - intros x ->. unfold eval, DBM, bind.
    rewrite DBM_z_run, DBM_k_run. cbn [g_k0 g_z0 module_env map].
    rewrite k0_as_map, broadcast_singleton_r.
    rewrite alpha_from_dkz_stretch. cbn [fst g_z0 module_env].
    now rewrite !map_map.
  - intros H1 H2. now apply DBM_shape_error.
Qed.

Lemma DBM_on_every_shape_witness :
  eval (DBM [] 0.01 15000) = Raise ValueError
  /\ exists out, eval (DBM freq 0.01 15000) = Ok out.
Proof.
  split.
  - apply (proj2 (proj2 (DBM_on_every_shape [] 0.01 15000)));
      rewrite ?freq_length; cbn; lia.
  - eexists. apply (proj1 (DBM_on_every_shape freq 0.01 15000)). reflexivity.
Defined.

(** X17.  What [JCA] does on every frequency array.  A porosity of zero
    raises [ZeroDivisionError] whatever the array.  Otherwise, on an array
    of the grid's length the entry [i] is the absorption for the wavenumber
    [2 pi f_i / c_eff] and the impedance [rho_eff c_eff], the medium being
    that of the grid frequency [i]; a one-entry array is stretched over the
    grid; every other length, the empty array included, raises
    [ValueError]. *)
Theorem JCA_on_every_shape (f : list R)
        (d phi sigma tort v_length t_length : R) :
  let fl := fluid_of FluidArgs.default in
  let k := fun g x => (RtoC (x * PI * 2)
                       / c_eff fl phi sigma tort v_length t_length
                           (2 * PI * g))%C in
  let z := fun g => (rho_eff fl phi sigma tort v_length (2 * PI * g)
                     * c_eff fl phi sigma tort v_length t_length
                         (2 * PI * g))%C in
  (phi = 0 ->
   eval (JCA f d phi sigma tort v_length t_length) = Raise ZeroDivisionError)
  /\ (phi <> 0 -> length f = length freq ->
      eval (JCA f d phi sigma tort v_length t_length)
      = Ok (zip_with
              (fun g x => rigid_backed_absorption z0 d (k g x) (z g))
              freq f))
  /\ (phi <> 0 -> forall x, f = [x] ->
      eval (JCA f d phi sigma tort v_length t_length)
      = Ok (map (fun g => rigid_backed_absorption z0 d (k g x) (z g)) freq))
  /\ (phi <> 0 -> length f <> length freq -> length f <> 1%nat ->
      eval (JCA f d phi sigma tort v_length t_length) = Raise ValueError).
Proof.
  intros fl k z. rewrite freq_length. split; [|split; [|split]].
  - intros ->. apply JCA_phi_zero.
  - intros Hphi Hf. unfold eval, JCA, bind.
    rewrite (JCA_kz_run _ _ _ _ _ _ _ Hphi). cbn [g_freq module_env].
    fold fl.
    rewrite broadcast_same by (now rewrite !length_map, freq_length).
    cbn [rbind]. rewrite !map_map, zip_with_map.
    rewrite alpha_from_dkz_zip
      by (rewrite zip_with_length, length_map; rewrite ?freq_length; auto).
    unfold ret. cbn [fst g_z0 module_env]. f_equal.
    rewrite zip_with_zip_with_map. apply zip_with_flip.
  - intros Hphi x ->. unfold eval, JCA, bind.
    rewrite (JCA_kz_run _ _ _ _ _ _ _ Hphi). cbn [g_freq module_env map].
    fold fl. rewrite broadcast_singleton_l. cbn [rbind].
    rewrite alpha_from_dkz_zip by (now rewrite !length_map).
    unfold ret. cbn [fst g_z0 module_env].
    now rewrite !map_map, zip_with_map, zip_with_diag.
  - intros Hphi H1 H2. now apply JCA_shape_error.
Qed.

Lemma JCA_on_every_shape_witness :
  eval (JCA [] 0.01 0.99 15000 1.01 87.4e-6 196e-6) = Raise ValueError
  /\ eval (JCA [] 0.01 0 15000 1.01 87.4e-6 196e-6) = Raise ZeroDivisionError.
Proof.
  pose proof (JCA_on_every_shape [] 0.01 0.99 15000 1.01 87.4e-6 196e-6)
    as (_ & _ & _ & H).
  pose proof (JCA_on_every_shape [] 0.01 0 15000 1.01 87.4e-6 196e-6)
    as (H0 & _).
  split.
  - apply H; rewrite ?freq_length; cbn; try lia. lra.
  - apply H0. reflexivity.
Defined.

(** ** The two descriptions of the medium *)

Lemma Cmul_div_cancel r c w :
  c <> RtoC 0 -> ((r * c) * (w / c))%C = (w * r)%C.
Proof.
  intros H. apply Cnorm2_nonzero in H. unfold Cnorm2 in H.
  apply complex_eq; unfold Cmul, Cdiv, Cnorm2; simpl; field; exact H.
Qed.

Lemma Cdiv_mul_cancel r c : c <> RtoC 0 -> ((r * c) / c)%C = r.
Proof.
  intros H. apply Cnorm2_nonzero in H. unfold Cnorm2 in H.
  apply complex_eq; unfold Cmul, Cdiv, Cnorm2; simpl; field; exact H.
Qed.

Lemma Cdiv_div_real w c :
  w <> 0 -> c <> RtoC 0 -> (RtoC w / (RtoC w / c))%C = c.
Proof.
  intros Hw H. apply Cnorm2_nonzero in H. unfold Cnorm2 in H.
  assert (H' : w * Re c * (w * Re c) + - (w * Im c) * - (w * Im c) <> 0).
  { replace (w * Re c * (w * Re c) + - (w * Im c) * - (w * Im c))
      with (w * w * (Re c * Re c + Im c * Im c)) by ring.
    repeat apply Rmult_integral_contrapositive_currified; assumption. }
  apply complex_eq; unfold Cmul, Cdiv, Cnorm2, RtoC; simpl; field;
    (split; [exact H | exact H']).
Qed.

(** X18.  The pair [(k, z)] that [JCA] hands to the conversion carries the
    medium back: on an array of the grid's length, where the sound speed [c]
    of the grid frequency [i] is not zero, [z k] is [omega rho],
    [z / c] is the density [rho] and, for a frequency that is not zero,
    [omega / k] is [c], with [omega = 2 pi f_i]. *)
Theorem JCA_kz_round_trip (f : list R) (phi sigma tort v_length t_length : R)
        (k z : list complex) (i : nat) (x g : R) (ki zi : complex) :
  let fl := fluid_of FluidArgs.default in
  let c := c_eff fl phi sigma tort v_length t_length (2 * PI * g) in
  let rho := rho_eff fl phi sigma tort v_length (2 * PI * g) in
  length f = length freq ->
  eval (JCA_kz f phi sigma tort v_length t_length) = Ok (k, z) ->
  nth_error f i = Some x -> nth_error freq i = Some g ->
  nth_error k i = Some ki -> nth_error z i = Some zi ->
  c <> RtoC 0 ->
  (zi * ki)%C = (RtoC (x * PI * 2) * rho)%C
  /\ (zi / c)%C = rho
  /\ (x <> 0 -> (RtoC (x * PI * 2) / ki)%C = c).
Proof.
  intros fl c rho Hlen H Hx Hg Hk Hz Hc.
  assert (Hphi : phi <> 0).
  { intros ->. unfold eval, JCA_kz, bind, global, lift in H.
    rewrite (rho_c_JCA_phi_zero _ _ _ _ _ _ _ Fluid_init_default) in H.
    discriminate. }
  unfold eval in H. rewrite (JCA_kz_run _ _ _ _ _ _ _ Hphi) in H.
  cbn [fst g_freq module_env] in H. fold fl in H.
  rewrite broadcast_same in H by (now rewrite !length_map).
  cbn [rbind] in H.
  assert (Hk' : k = zip_with (fun x y => (RtoC x / y)%C)
                      (map (fun x => x * 2) (map (fun x => x * PI) f))
                      (map (fun g => c_eff fl phi sigma tort v_length
                                       t_length (2 * PI * g)) freq))
    by congruence.
  assert (Hz' : z = map (fun g => (rho_eff fl phi sigma tort v_length
                                     (2 * PI * g)
                                   * c_eff fl phi sigma tort v_length
                                       t_length (2 * PI * g))%C) freq)
    by congruence.
  clear H. subst k z.
  assert (Eki : ki = (RtoC (x * PI * 2) / c)%C).
  { assert (E : nth_error
                  (zip_with (fun x y => (RtoC x / y)%C)
                     (map (fun x => x * 2) (map (fun x => x * PI) f))
                     (map (fun g => c_eff fl phi sigma tort v_length
                                      t_length (2 * PI * g)) freq)) i
                = Some (RtoC (x * PI * 2) / c)%C).
    { apply (zip_with_nth (fun x y => (RtoC x / y)%C)).
      - now rewrite !nth_error_map, Hx.
      - now rewrite nth_error_map, Hg. }
    rewrite E in Hk. congruence. }
  rewrite nth_error_map, Hg in Hz. cbn [option_map] in Hz.
  apply Some_eq_inv in Hz. fold c rho in Hz. subst ki zi.
  split; [|split].
  - now apply Cmul_div_cancel.
  - now apply Cdiv_mul_cancel.
  - intros Hx0. apply Cdiv_div_real; [|exact Hc].
    pose proof PI_RGT_0.
    apply Rmult_integral_contrapositive_currified;
      [apply Rmult_integral_contrapositive_currified; [exact Hx0 | lra]
      | lra].
Qed.

(** ** The signs of the effective medium *)

Lemma Cabs_gt_Re w : Im w <> 0 -> - Cabs w < Re w < Cabs w.
Proof.
  intros H.
  pose proof (Cabs_sqr w) as Hsq. unfold Cnorm2 in Hsq.
  pose proof (sqrt_pos (Cnorm2 w)) as Hpos. fold (Cabs w) in Hpos.
  assert (Him : 0 < Im w * Im w) by nra.
  simpl in Hsq. split; nra.
Qed.

(** The principal square root of a number of the open upper half plane lies
    in the open first quadrant. *)
Lemma Csqrt_upper_half w :
  0 < Im w -> 0 < Re (Csqrt w) /\ 0 < Im (Csqrt w).
Proof.
  intros H. destruct (Cabs_gt_Re w) as [H1 H2]; [lra|].
  unfold Csqrt. cbn [Re Im].
  destruct (Rle_dec 0 (Im w)) as [_|Hn]; [|lra].
  split.
  - apply sqrt_lt_R0. lra.
  - rewrite Rmult_1_l. apply sqrt_lt_R0. lra.
Qed.

Lemma G_arg_parts fl phi sigma alpha Lambda w :
  phi <> 0 -> Lambda <> 0 -> sigma <> 0 ->
  G_arg fl phi sigma alpha Lambda w
  = mkC 1 (4 * (alpha ^ 2 * Fluid.Eta fl * Fluid.rho fl * w)
           / (sigma ^ 2 * Lambda ^ 2 * phi ^ 2)).
Proof.
  intros Hp HL Hs. unfold G_arg.
  apply complex_eq; unfold Cadd, Cmul, Cdiv, Cnorm2, RtoC; cbn [Re Im];
    field; repeat split; assumption.
Qed.

Lemma H_arg_parts fl Lambda' w :
  Fluid.Eta fl <> 0 ->
  H_arg fl Lambda' w
  = mkC 1 (Fluid.rho fl * w * Fluid.Pr fl ^ 2 * Lambda' ^ 2
           / (16 * Fluid.Eta fl)).
Proof.
  intros H. unfold H_arg.
  apply complex_eq; unfold Cadd, Cmul, Cdiv, Cnorm2, RtoC, Ci; cbn [Re Im];
    field; exact H.
Qed.

(** [1 + a / (j b) g], for reals [a] and [b] and a complex [g]. *)
Lemma one_plus_over_j_parts (a b : R) (g : complex) :
  b <> 0 ->
  (RtoC 1 + RtoC a / (1j * RtoC b) * g)%C
  = mkC (1 + a / b * Im g) (- (a / b * Re g)).
Proof.
  intros H.
  apply complex_eq; unfold Cadd, Cmul, Cdiv, Cnorm2, RtoC, Ci; cbn [Re Im];
    field; exact H.
Qed.

(** Positivity of a product of positive factors. *)
Ltac positive :=
  repeat first [ assumption | apply Rmult_lt_0_compat | apply pow_lt | lra ].

Section Signs.
Variable fl : Fluid.t.
Variables phi sigma alpha Lambda Lambda' w : R.
Hypothesis rho_pos : 0 < Fluid.rho fl.
Hypothesis Eta_pos : 0 < Fluid.Eta fl.
Hypothesis Pr_nonzero : Fluid.Pr fl <> 0.
Hypothesis gamma_ge_1 : 1 <= Fluid.gamma fl.
Hypothesis P0_pos : 0 < Fluid.P0 fl.
Hypothesis phi_pos : 0 < phi.
Hypothesis sigma_pos : 0 < sigma.
Hypothesis alpha_pos : 0 < alpha.
Hypothesis Lambda_pos : 0 < Lambda.
Hypothesis Lambda'_pos : 0 < Lambda'.
Hypothesis w_pos : 0 < w.

Lemma G_quadrant :
  0 < Re (G fl phi sigma alpha Lambda w)
  /\ 0 < Im (G fl phi sigma alpha Lambda w).
Proof.
  unfold G. apply Csqrt_upper_half.
  assert (Hd : 0 < sigma ^ 2 * Lambda ^ 2 * phi ^ 2) by positive.
  rewrite G_arg_parts by (apply Rgt_not_eq; assumption). cbn [Im].
  apply Rdiv_lt_0_compat; [|exact Hd]. positive.
Qed.

Lemma H_quadrant :
  0 < Re (H fl Lambda' w) /\ 0 < Im (H fl Lambda' w).
Proof.
  unfold H. apply Csqrt_upper_half.
  rewrite H_arg_parts by lra. cbn [Im].
  assert (HPr : 0 < Fluid.Pr fl ^ 2).
  { simpl. rewrite Rmult_1_r.
    destruct (Rtotal_order (Fluid.Pr fl) 0) as [Hn|[Hz|Hp]]; nra. }
  apply Rdiv_lt_0_compat; [|lra]. positive.
Qed.

Lemma rho_eff_signs :
  0 < Re (rho_eff fl phi sigma alpha Lambda w)
  /\ Im (rho_eff fl phi sigma alpha Lambda w) < 0.
Proof.
  destruct G_quadrant as [Hgr Hgi].
  unfold rho_eff.
  assert (Hb : 0 < Fluid.rho fl * w * alpha) by positive.
  rewrite one_plus_over_j_parts by lra.
  set (g := G fl phi sigma alpha Lambda w) in *.
  assert (Hs : 0 < sigma * phi / (Fluid.rho fl * w * alpha)).
  { apply Rdiv_lt_0_compat; [|exact Hb]. now apply Rmult_lt_0_compat. }
  assert (Hpre : 0 < alpha * Fluid.rho fl / phi).
  { apply Rdiv_lt_0_compat; [|exact phi_pos]. now apply Rmult_lt_0_compat. }
  cbn [Re Im RtoC Cmul].
  set (s := sigma * phi / (Fluid.rho fl * w * alpha)) in *.
  set (pre := alpha * Fluid.rho fl / phi) in *.
  assert (Hsi : 0 < s * Im g) by now apply Rmult_lt_0_compat.
  assert (Hsr : 0 < s * Re g) by now apply Rmult_lt_0_compat.
  split; nra.
Qed.

Lemma K_signs :
  0 < Re (K fl phi Lambda' w) /\ 0 <= Im (K fl phi Lambda' w).
Proof.
  destruct H_quadrant as [Hhr Hhi].
  unfold K.
  assert (HPr : 0 < Fluid.Pr fl ^ 2).
  { simpl. rewrite Rmult_1_r.
    destruct (Rtotal_order (Fluid.Pr fl) 0) as [Hn|[Hz|Hp]]; nra. }
  assert (Hb : 0 < Lambda' ^ 2 * Fluid.Pr fl ^ 2 * w * Fluid.rho fl)
    by positive.
  rewrite one_plus_over_j_parts by lra.
  set (h := H fl Lambda' w) in *.
  assert (Hu : 0 < 8 * Fluid.Eta fl
                   / (Lambda' ^ 2 * Fluid.Pr fl ^ 2 * w * Fluid.rho fl)).
  { apply Rdiv_lt_0_compat; [lra|exact Hb]. }
  set (u := 8 * Fluid.Eta fl
            / (Lambda' ^ 2 * Fluid.Pr fl ^ 2 * w * Fluid.rho fl)) in *.
  set (Wr := 1 + u * Im h). set (Wi := - (u * Re h)).
  assert (Hui : 0 < u * Im h) by now apply Rmult_lt_0_compat.
  assert (Hur : 0 < u * Re h) by now apply Rmult_lt_0_compat.
  assert (HWr : 1 < Wr) by (unfold Wr; lra).
  assert (HWi : Wi < 0) by (unfold Wi; lra).
  assert (HN : 0 < Wr * Wr + Wi * Wi) by nra.
  assert (Hpre : 0 < Fluid.gamma fl * Fluid.P0 fl / phi).
  { apply Rdiv_lt_0_compat; [|exact phi_pos].
    apply Rmult_lt_0_compat; lra. }
  set (pre := Fluid.gamma fl * Fluid.P0 fl / phi) in *.
  (* the inverse of W *)
  assert (Hinv : Cinv (mkC Wr Wi)
                 = mkC (Wr / (Wr * Wr + Wi * Wi))
                       (- Wi / (Wr * Wr + Wi * Wi))) by reflexivity.
  rewrite Hinv.
  set (N := Wr * Wr + Wi * Wi) in *.
  assert (Hq : 0 < Wr / N <= 1).
  { split; [apply Rdiv_lt_0_compat; lra|].
    apply Rmult_le_reg_r with N; [exact HN|].
    unfold Rdiv. rewrite Rmult_assoc, Rinv_l by lra. unfold N. nra. }
  assert (Hq' : 0 < - Wi / N) by (apply Rdiv_lt_0_compat; lra).
  set (q := Wr / N) in *. set (q' := - Wi / N) in *.
  set (Dr := Fluid.gamma fl - ((Fluid.gamma fl - 1) * q - 0 * q')).
  set (Di := 0 - ((Fluid.gamma fl - 1) * q' + 0 * q)).
  assert (HDr : 1 <= Dr) by (unfold Dr; nra).
  assert (HDi : Di <= 0) by (unfold Di; nra).
  assert (HND : 0 < Dr * Dr + Di * Di) by nra.
  change (0 < Re (Cdiv (RtoC pre) (mkC Dr Di))
          /\ 0 <= Im (Cdiv (RtoC pre) (mkC Dr Di))).
  unfold Cdiv, Cnorm2. cbn [Re Im RtoC].
  split.
  - apply Rdiv_lt_0_compat; [nra|exact HND].
  - apply Rmult_le_pos; [nra|]. left. now apply Rinv_0_lt_compat.
Qed.

Lemma c_eff_quadrant :
  0 < Re (c_eff fl phi sigma alpha Lambda Lambda' w)
  /\ 0 < Im (c_eff fl phi sigma alpha Lambda Lambda' w).
Proof.
  destruct rho_eff_signs as [Hrr Hri]. destruct K_signs as [Hkr Hki].
  unfold c_eff. apply Csqrt_upper_half.
  set (r := rho_eff fl phi sigma alpha Lambda w) in *.
  set (k := K fl phi Lambda' w) in *.
  unfold Cdiv, Cnorm2. cbn [Im].
  apply Rdiv_lt_0_compat; nra.
Qed.

Lemma c_eff_nonzero :
  c_eff fl phi sigma alpha Lambda Lambda' w <> RtoC 0.
Proof.
  destruct c_eff_quadrant as [H _]. intros E. rewrite E in H. simpl in H. lra.
Qed.
End Signs.

(** X19.  For a fluid with positive density and viscosity and positive
    porosity, flow resistivity, tortuosity and viscous length, every
    effective density that [rho_c_JCA] returns for a positive frequency has
    a positive real part and a negative imaginary part. *)
Theorem rho_c_JCA_density_signs (freq : list R)
        (phi sigma alpha v_length t_length : R) (args : FluidArgs.t)
        (fl : Fluid.t) (rho c : list complex) :
  Fluid.init args = Ok fl ->
  0 < Fluid.rho fl -> 0 < Fluid.Eta fl ->
  0 < phi -> 0 < sigma -> 0 < alpha -> 0 < v_length ->
  Forall (fun x => 0 < x) freq ->
  rho_c_JCA freq phi sigma alpha v_length t_length args = Ok (rho, c) ->
  Forall (fun r => 0 < Re r /\ Im r < 0) rho.
Proof.
  intros Hfl Hr He Hphi Hs Ha Hv Hf H.
  rewrite (rho_c_JCA_entries _ _ _ _ _ _ _ _ Hfl) in H by lra.
  injection H as <- _.
  apply Forall_forall. intros r Hin. apply in_map_iff in Hin as (x & <- & Hx).
  rewrite Forall_forall in Hf. specialize (Hf x Hx). pose proof PI_RGT_0.
  apply rho_eff_signs; try assumption. positive.
Qed.

Lemma rho_c_JCA_density_signs_witness :
  let fl := fluid_of FluidArgs.default in
  Forall (fun r => 0 < Re r /\ Im r < 0)
    [rho_eff fl 0.99 15000 1.01 87.4e-6 (2 * PI * 100)].
Proof.
  intros fl. destruct default_fluid_physical as (Hr & He & _).
  assert (Hphi : 0.99 <> 0) by lra.
  apply (rho_c_JCA_density_signs [100] 0.99 15000 1.01 87.4e-6 196e-6
           FluidArgs.default fl _
           [c_eff fl 0.99 15000 1.01 87.4e-6 196e-6 (2 * PI * 100)]);
    try assumption; try lra.
  - apply Fluid_init_default.
  - constructor; [lra|constructor].
  - now rewrite (rho_c_JCA_entries _ _ _ _ _ _ _ _ Fluid_init_default Hphi).
Defined.

(** X20.  With, in addition, a Prandtl number that is not zero, an adiabatic
    index of at least one, a positive pressure and a positive thermal
    length, every sound speed that [rho_c_JCA] returns for a positive
    frequency has positive real and imaginary parts; in particular it is not
    zero. *)
Theorem rho_c_JCA_sound_speed_signs (freq : list R)
        (phi sigma alpha v_length t_length : R) (args : FluidArgs.t)
        (fl : Fluid.t) (rho c : list complex) :
  Fluid.init args = Ok fl ->
  0 < Fluid.rho fl -> 0 < Fluid.Eta fl -> Fluid.Pr fl <> 0 ->
  1 <= Fluid.gamma fl -> 0 < Fluid.P0 fl ->
  0 < phi -> 0 < sigma -> 0 < alpha -> 0 < v_length -> 0 < t_length ->
  Forall (fun x => 0 < x) freq ->
  rho_c_JCA freq phi sigma alpha v_length t_length args = Ok (rho, c) ->
  Forall (fun w => 0 < Re w /\ 0 < Im w) c.
Proof.
  intros Hfl Hr He HPr Hg HP Hphi Hs Ha Hv Ht Hf H.
  rewrite (rho_c_JCA_entries _ _ _ _ _ _ _ _ Hfl) in H by lra.
  injection H as _ <-.
  apply Forall_forall. intros r Hin. apply in_map_iff in Hin as (x & <- & Hx).
  rewrite Forall_forall in Hf. specialize (Hf x Hx). pose proof PI_RGT_0.
  apply c_eff_quadrant; try assumption. positive.
Qed.

Lemma rho_c_JCA_sound_speed_signs_witness :
  let fl := fluid_of FluidArgs.default in
  Forall (fun w => 0 < Re w /\ 0 < Im w)
    [c_eff fl 0.99 15000 1.01 87.4e-6 196e-6 (2 * PI * 100)].
Proof.
  intros fl. destruct default_fluid_physical as (Hr & He & HPr & Hg & HP).
  assert (Hphi : 0.99 <> 0) by lra.
  apply (rho_c_JCA_sound_speed_signs [100] 0.99 15000 1.01 87.4e-6 196e-6
           FluidArgs.default fl
           [rho_eff fl 0.99 15000 1.01 87.4e-6 (2 * PI * 100)]);
    try assumption; try lra.
  - apply Fluid_init_default.
  - constructor; [lra|constructor].
  - now rewrite (rho_c_JCA_entries _ _ _ _ _ _ _ _ Fluid_init_default Hphi).
Defined.

(** X21.  For positive material parameters and positive frequencies on an
    array of the grid's length, every wavenumber that [JCA] hands to the
    conversion has a positive real part and a negative imaginary part, and
    every impedance a positive real part. *)
Theorem JCA_kz_signs (f : list R) (phi sigma tort v_length t_length : R) :
  length f = length freq ->
  Forall (fun x => 0 < x) f ->
  0 < phi -> 0 < sigma -> 0 < tort -> 0 < v_length -> 0 < t_length ->
  exists k z,
    eval (JCA_kz f phi sigma tort v_length t_length) = Ok (k, z)
    /\ Forall (fun w => 0 < Re w /\ Im w < 0) k
    /\ Forall (fun w => 0 < Re w) z.
Proof.
  intros Hlen Hf Hphi Hs Ha Hv Ht.
  destruct default_fluid_physical as (Hr & He & HPr & Hg & HP).
  assert (Hphi' : phi <> 0) by lra.
  unfold eval. rewrite (JCA_kz_run _ _ _ _ _ _ _ Hphi').
  cbn [fst g_freq module_env].
  rewrite broadcast_same by (now rewrite !length_map).
  cbn [rbind]. eexists. eexists. split; [reflexivity|].
  assert (Hq : forall g, In g freq ->
             0 < Re (c_eff (fluid_of FluidArgs.default) phi sigma tort
                       v_length t_length (2 * PI * g))
             /\ 0 < Im (c_eff (fluid_of FluidArgs.default) phi sigma tort
                          v_length t_length (2 * PI * g))).
  { intros g Hg'. apply freq_In in Hg'. pose proof PI_RGT_0.
    apply c_eff_quadrant; try assumption. positive. }
  split.
  - apply zip_with_Forall. intros x cg Hx Hc.
    apply in_map_iff in Hc as (g & <- & Hg').
    destruct (Hq g Hg') as [Hcr Hci].
    apply in_map_iff in Hx as (x1 & <- & Hx).
    apply in_map_iff in Hx as (x0 & <- & Hx).
    rewrite Forall_forall in Hf. specialize (Hf x0 Hx). pose proof PI_RGT_0.
    assert (Hw : 0 < x0 * PI * 2) by positive.
    set (cg := c_eff _ _ _ _ _ _ _) in *.
    unfold Cdiv, Cnorm2. cbn [Re Im RtoC].
    assert (HN : 0 < Re cg * Re cg + Im cg * Im cg) by nra.
    assert (H1 : 0 < x0 * PI * 2 * Re cg) by now apply Rmult_lt_0_compat.
    assert (H2 : 0 < x0 * PI * 2 * Im cg) by now apply Rmult_lt_0_compat.
    split.
    + apply Rdiv_lt_0_compat; [lra|exact HN].
    + apply Ropp_lt_cancel. rewrite Ropp_0.
      replace (- ((0 * Re cg - x0 * PI * 2 * Im cg)
                  / (Re cg * Re cg + Im cg * Im cg)))
        with (x0 * PI * 2 * Im cg / (Re cg * Re cg + Im cg * Im cg))
        by (field; lra).
      apply Rdiv_lt_0_compat; [lra|exact HN].
  - apply Forall_forall. intros w Hw.
    apply in_map_iff in Hw as (g & <- & Hg').
    destruct (Hq g Hg') as [Hcr Hci].
    assert (Hrs : 0 < Re (rho_eff (fluid_of FluidArgs.default) phi sigma tort
                            v_length (2 * PI * g))
                  /\ Im (rho_eff (fluid_of FluidArgs.default) phi sigma tort
                           v_length (2 * PI * g)) < 0).
    { apply freq_In in Hg'. pose proof PI_RGT_0.
      apply rho_eff_signs; try assumption. positive. }
    destruct Hrs as [Hrr Hri]. cbn [Re Cmul]. nra.
Qed.

Lemma JCA_kz_signs_witness :
  exists k z,
    eval (JCA_kz freq 0.99 15000 1.01 87.4e-6 196e-6) = Ok (k, z)
    /\ Forall (fun w => 0 < Re w) z.
Proof.
  destruct (JCA_kz_signs freq 0.99 15000 1.01 87.4e-6 196e-6)
    as (k & z & H & _ & Hz); try lra.
  - reflexivity.
  - apply Forall_forall. intros x Hx. apply freq_In in Hx. lra.
  - exists k, z. split; assumption.
Defined.

(** At the first frequency of the grid. *)
Lemma JCA_kz_round_trip_witness :
  let fl := fluid_of FluidArgs.default in
  let c := c_eff fl 0.99 15000 1.01 87.4e-6 196e-6 (2 * PI * 50) in
  let rho := rho_eff fl 0.99 15000 1.01 87.4e-6 (2 * PI * 50) in
  ((rho * c) / c)%C = rho.
Proof.
  intros fl c rho.
  destruct default_fluid_physical as (Hr & He & HPr & Hg & HP).
  pose proof PI_RGT_0 as Hpi.
  assert (Hphi : 0.99 <> 0) by lra.
  assert (Hc : c <> RtoC 0).
  { apply c_eff_nonzero; try assumption; try lra. }
  assert (H0 : nth_error freq 0 = Some 50) by (now rewrite freq_nth by lia).
  pose proof (JCA_kz_on_grid 0.99 15000 1.01 87.4e-6 196e-6 Hphi) as Hrun.
  cbv zeta in Hrun.
  refine (proj1 (proj2 (JCA_kz_round_trip freq 0.99 15000 1.01 87.4e-6
                          196e-6 _ _ 0 50 50 (RtoC (50 * PI * 2) / c)%C
                          (rho * c)%C eq_refl Hrun H0 H0 _ _ Hc))).
  - now rewrite nth_error_map, H0.
  - now rewrite nth_error_map, H0.
Defined.

(** ** The user interface: [get_alpha] *)

Lemma bind_ret_eval {A} (m : M A) :
  eval (bind m (fun a => ret a)) = eval m.
Proof.
  unfold eval, bind, ret. destruct (m module_env) as [[a|x] e]; reflexivity.
Qed.

Lemma JCA_phi_zero_eval f d sigma tort v_length t_length :
  eval (JCA f d 0 sigma tort v_length t_length) = Raise ZeroDivisionError.
Proof. apply JCA_phi_zero. Qed.

Lemma get_alpha_eval (self : ParamWidget) :
  eval (get_alpha self)
  = if DBMRadio self
    then eval (DBM freq (thicknessBox self * 1e-3) (sigmaBox self * 1e3))
    else if JCARadio self
         then eval (JCA freq (thicknessBox self * 1e-3) (phiBox self)
                      (sigmaBox self * 1e3) (tortuosityBox self)
                      (vLengthBox self * 1e-6) (tLengthBox self * 1e-6))
         else eval (DBM freq (thicknessBox self * 1e-3)
                      (sigmaBox self * 1e3)).
Proof.
  unfold get_alpha. cbv zeta. rewrite bind_ret_eval.
  destruct (DBMRadio self), (JCARadio self); reflexivity.
Qed.

(** X22.  With the DBM button checked, or with neither button checked,
    [get_alpha] returns the absorption of the empirical model on the grid,
    for the flow resistivity of the box times 1000 and the thickness of the
    box divided by 1000; the result does not depend on the other four boxes
    and no value of the boxes makes the call raise. *)
Theorem get_alpha_empirical (self : ParamWidget) :
  DBMRadio self = true \/ JCARadio self = false ->
  let sigma := sigmaBox self * 1e3 in
  let d := thicknessBox self * 1e-3 in
  eval (get_alpha self)
  = Ok (map (fun g =>
               rigid_backed_absorption z0 d
                 (RtoC (2 * PI * g / c0) * miki_k_factor sigma g)%C
                 (RtoC z0 * miki_z_factor sigma g)%C) freq).
Proof.
  intros H sigma d. rewrite get_alpha_eval. fold sigma d.
  rewrite DBM_on_grid.
  destruct H as [-> | ->]; [reflexivity|].
  destruct (DBMRadio self); reflexivity.
Qed.

Lemma get_alpha_empirical_witness :
  exists out,
    eval (get_alpha (mkParamWidget 15 10 1.01 0.99 87.4 196 true false))
    = Ok out.
Proof.
  eexists.
  apply (get_alpha_empirical
           (mkParamWidget 15 10 1.01 0.99 87.4 196 true false)).
  left. reflexivity.
Defined.

(** X23.  With the JCA button checked and the DBM button not, [get_alpha]
    returns the absorption of the effective-medium model on the grid, for
    the flow resistivity of the box times 1000, the thickness divided by
    1000 and the two lengths divided by 1000000, provided the porosity box
    is not zero; a porosity box of zero makes the call raise
    [ZeroDivisionError]. *)
Theorem get_alpha_effective_medium (self : ParamWidget) :
  DBMRadio self = false -> JCARadio self = true ->
  let sigma := sigmaBox self * 1e3 in
  let d := thicknessBox self * 1e-3 in
  let phi := phiBox self in
  let tort := tortuosityBox self in
  let v_length := vLengthBox self * 1e-6 in
  let t_length := tLengthBox self * 1e-6 in
  let fl := fluid_of FluidArgs.default in
  (phi = 0 -> eval (get_alpha self) = Raise ZeroDivisionError)
  /\ (phi <> 0 ->
      eval (get_alpha self)
      = Ok (map (fun g =>
                   rigid_backed_absorption z0 d
                     (RtoC (g * PI * 2)
                      / c_eff fl phi sigma tort v_length t_length
                          (2 * PI * g))%C
                     (rho_eff fl phi sigma tort v_length (2 * PI * g)
                      * c_eff fl phi sigma tort v_length t_length
                          (2 * PI * g))%C) freq)).
Proof.
  intros HD HJ sigma d phi tort v_length t_length fl.
  rewrite get_alpha_eval, HD, HJ.
  fold sigma d phi tort v_length t_length. split.
  - intros ->. apply JCA_phi_zero.
  - intros Hphi. now rewrite JCA_on_grid.
Qed.

Lemma get_alpha_effective_medium_witness :
  eval (get_alpha (mkParamWidget 15 10 1.01 0 87.4 196 false true))
  = Raise ZeroDivisionError.
Proof.
  apply (proj1 (get_alpha_effective_medium
                  (mkParamWidget 15 10 1.01 0 87.4 196 false true)
                  eq_refl eq_refl)).
  reflexivity.
Defined.

(** X24.  [get_alpha] never raises [ValueError]; it raises exactly when the
    JCA button is checked, the DBM button is not and the porosity box is
    zero; whenever it returns, the array has one entry per grid frequency,
    the length with which the window plots it against [freq]. *)
Theorem get_alpha_outcomes (self : ParamWidget) :
  ((exists x, eval (get_alpha self) = Raise x)
   <-> (DBMRadio self = false /\ JCARadio self = true /\ phiBox self = 0))
  /\ eval (get_alpha self) <> Raise ValueError
  /\ (forall out, eval (get_alpha self) = Ok out -> length out = length freq).
Proof.
  rewrite get_alpha_eval.
  destruct (DBMRadio self) eqn:HD; [|destruct (JCARadio self) eqn:HJ].
  - rewrite DBM_on_grid. split; [|split].
    + split; [intros [x Hx]; discriminate | intros (H & _); discriminate].
    + discriminate.
    + intros out [= <-]. apply length_map.
  - destruct (Req_dec_T (phiBox self) 0) as [E|N].
    + rewrite E, JCA_phi_zero_eval. split; [|split].
      * split; [auto | eauto].
      * discriminate.
      * discriminate.
    + rewrite (JCA_on_grid _ _ _ _ _ _ N). split; [|split].
      * split; [intros [x Hx]; discriminate | intros (_ & _ & H)].
        contradiction.
      * discriminate.
      * intros out [= <-]. apply length_map.
  - rewrite DBM_on_grid. split; [|split].
    + split; [intros [x Hx]; discriminate | intros (_ & H & _); discriminate].
    + discriminate.
    + intros out [= <-]. apply length_map.
Qed.

Lemma get_alpha_outcomes_witness :
  exists x,
    eval (get_alpha (mkParamWidget 15 10 1.01 0 87.4 196 false true))
    = Raise x.
Proof.
  apply (proj2 (proj1 (get_alpha_outcomes
                         (mkParamWidget 15 10 1.01 0 87.4 196 false true)))).
  repeat split; reflexivity.
Defined.

(** ** The grids *)

Lemma omega_as_map : omega = map (fun x => 2 * PI * x) freq.
Proof. reflexivity. Qed.

(** X25.  The three module-level grids have 995 entries each and are
    aligned: entry [i] of [freq] is [50 + 10 i], so the grid runs from 50 to
    9990 and does not contain 10000; entry [i] of [omega] is [2 pi] times
    it and entry [i] of [k0] is that over [c0].  The frequencies strictly
    increase. *)
Theorem module_grids :
  length freq = 995%nat /\ length omega = 995%nat /\ length k0 = 995%nat
  /\ (forall i, (i < 995)%nat ->
        nth_error freq i = Some (IZR (50 + Z.of_nat i * 10))
        /\ nth_error omega i = Some (2 * PI * IZR (50 + Z.of_nat i * 10))
        /\ nth_error k0 i = Some (2 * PI * IZR (50 + Z.of_nat i * 10) / c0))
  /\ (forall x, In x freq -> 50 <= x <= 9990)
  /\ (forall i j x y, (i < j)%nat ->
        nth_error freq i = Some x -> nth_error freq j = Some y -> x < y).
Proof.
  split; [apply freq_length|]. split; [apply omega_length|].
  split; [apply k0_length|]. split; [|split].
  - intros i Hi. split; [now apply freq_nth|]. split.
    + rewrite omega_as_map, nth_error_map, freq_nth by assumption.
      reflexivity.
    + now apply k0_nth.
  - apply freq_In.
  - intros i j x y Hij Hx Hy.
    assert (Hj : (j < 995)%nat).
    { rewrite <- freq_length. apply nth_error_Some. congruence. }
    rewrite freq_nth in Hx, Hy by lia.
    apply Some_eq_inv in Hx, Hy. subst x y. apply IZR_lt. lia.
Qed.

Lemma module_grids_witness :
  nth_error freq 994 = Some 9990 /\ ~ In 10000 freq.
Proof.
  destruct module_grids as (_ & _ & _ & Hn & Hin & _). split.
  - destruct (Hn 994%nat) as [H _]; [lia|]. exact H.
  - intros H. apply Hin in H. lra.
Defined.
